(** * fix_migrations.py: reconciling the EF migration history of hexabill.db

    A shallow embedding of [src/backend/HexaBill.Api/fix_migrations.py].
    The script is a straight-line Python program that talks to SQLite and
    prints progress lines, so it is embedded in a small state-and-exception
    monad over a [World]: the storage file, the committed contents of the
    [__EFMigrationsHistory] table, the open connection with its uncommitted
    working copy, standard output, and a journal of the database calls the
    script made. *)

From stdpp Require Import gmap strings list fin_maps.

Local Open Scope string_scope.
Local Open Scope list_scope.
Local Open Scope Z_scope.

(** ** Data *)

(** The history table maps a [MigrationId] to its [ProductVersion]. *)
Abbreviation Ledger := (gmap string string).

(** A table that may not have been created yet. *)
Abbreviation Table := (option (gmap string string)).

(** One catalog entry: [(migration_id, product_version)]. *)
Abbreviation MigrationRecord := (string * string)%type.

(** The lines the script can print, one constructor per [print] call. *)
Inductive line : Type :=
| StorageNotFound (path : string)
| Checking (path : string)
| AlreadyRecorded (id : string)
| Inserted (id : string)
| Failed (id : string) (e : string)
| Completed
| ConnectionError (e : string).

#[global] Instance line_eq_dec : EqDecision line.
Proof. solve_decision. Defined.

(** The text of each line, as the f-strings of the script build it. *)
Definition render (l : line) : string :=
  match l with
  | StorageNotFound p => "Error: Database file '" +:+ p +:+ "' not found."
  | Checking p => "Checking migrations for " +:+ p +:+ "..."
  | AlreadyRecorded id => "Migration already exists in history: " +:+ id
  | Inserted id => "Inserted migration into history: " +:+ id
  | Failed id e => "Error processing " +:+ id +:+ ": " +:+ e
  | Completed => "Migration history update completed."
  | ConnectionError e => "Database connection error: " +:+ e
  end.

(** The identifier a per-record line reports on. *)
Definition line_id (l : line) : option string :=
  match l with
  | AlreadyRecorded id | Inserted id | Failed id _ => Some id
  | _ => None
  end.

Definition is_inserted (l : line) : bool :=
  match l with Inserted _ => true | _ => false end.

Definition is_failed (l : line) : bool :=
  match l with Failed _ _ => true | _ => false end.

(** The calls the script makes on the sqlite3 connection and cursor. *)
Inductive stmt : Type :=
| SqlConnect
| SqlSelect (id : string)
| SqlInsert (id : string) (v : string)
| SqlCommit
| SqlClose.

#[global] Instance stmt_eq_dec : EqDecision stmt.
Proof. solve_decision. Defined.

(** A journal entry: the call, and whether it returned ([true]) or raised. *)
Abbreviation entry := (stmt * bool)%type.

Definition select_of (e : entry) : option string :=
  match e with (SqlSelect id, _) => Some id | _ => None end.

(** ** The world the script runs in *)

Record World : Type := mkWorld {
  (** [os.path.exists(db_path)] *)
  storage_present : bool;
  (** committed rows of [__EFMigrationsHistory]; [None]: no such table *)
  durable : Table;
  (** the open connection and the table as its transaction sees it;
      [None]: no connection is open *)
  session : option Table;
  (** what has been printed so far *)
  stdout : list line;
  (** the database calls made so far *)
  journal : list entry
}.

Definition set_session (s : option Table) (w : World) : World :=
  mkWorld (storage_present w) (durable w) s (stdout w) (journal w).

Definition set_durable (t : Table) (w : World) : World :=
  mkWorld (storage_present w) t (session w) (stdout w) (journal w).

Definition emit (l : line) (w : World) : World :=
  mkWorld (storage_present w) (durable w) (session w) (stdout w ++ [l]) (journal w).

Definition log_call (e : entry) (w : World) : World :=
  mkWorld (storage_present w) (durable w) (session w) (stdout w) (journal w ++ [e]).

(** What a run added to standard output and to the journal. *)
Definition printed (w w' : World) : list line :=
  drop (length (stdout w)) (stdout w').

Definition issued (w w' : World) : list entry :=
  drop (length (journal w)) (journal w').

(** The errors sqlite3 can raise that do not follow from the table's rows:
    each is a function of the call and its bound parameters (an unreadable
    file, a value that cannot be bound, a constraint on the row's values, a
    transaction that cannot be finalised). [None] means the call does not
    raise for that reason. *)
Record Faults : Type := mkFaults {
  connect_error : option string;
  select_error : string -> option string;
  insert_error : string -> string -> option string;
  commit_error : option string
}.

Definition no_faults : Faults :=
  mkFaults None (fun _ => None) (fun _ _ => None) None.

(** ** A small Python: state, exceptions, [try]/[except Exception] *)

Module Py.

(** [exit(n)] raises [SystemExit], which [except Exception] does not
    catch; every sqlite3 error is an [Exception] with a message. *)
Inductive exn : Type :=
| SystemExit (code : Z)
| Exception (msg : string).

Inductive res (A : Type) : Type :=
| Ret (a : A)
| Raise (e : exn).
Arguments Ret {A} a.
Arguments Raise {A} e.

Definition M (A : Type) : Type := World -> res A * World.

Definition ret {A} (a : A) : M A := fun w => (Ret a, w).

Definition raise {A} (e : exn) : M A := fun w => (Raise e, w).

Definition bind {A B} (m : M A) (k : A -> M B) : M B :=
  fun w =>
    match m w with
    | (Ret a, w') => k a w'
    | (Raise e, w') => (Raise e, w')
    end.

(** [try: m  except Exception as e: h e] *)
Definition try_except {A} (m : M A) (h : string -> M A) : M A :=
  fun w =>
    match m w with
    | (Raise (Exception msg), w') => h msg w'
    | r => r
    end.

(** [for x in xs: body x]; an exception that escapes the body ends the
    loop. *)
Fixpoint for_each {A} (xs : list A) (body : A -> M unit) : M unit :=
  match xs with
  | [] => ret tt
  | x :: xs' => bind (body x) (fun _ => for_each xs' body)
  end.

Definition print (l : line) : M unit := fun w => (Ret tt, emit l w).

Definition exit {A} (code : Z) : M A := raise (SystemExit code).

Definition path_exists : M bool := fun w => (Ret (storage_present w), w).

(** The world a computation leaves behind, and its result. *)
Definition exec {A} (m : M A) (w : World) : World := snd (m w).
Definition result {A} (m : M A) (w : World) : res A := fst (m w).

(** The status the interpreter exits with: the code of a [SystemExit],
    1 after an uncaught exception, 0 when the script runs off its end. *)
Definition exit_status (r : res unit) : Z :=
  match r with
  | Ret _ => 0
  | Raise (SystemExit c) => c
  | Raise (Exception _) => 1
  end.

End Py.

Import Py.

Notation "'let*' x ':=' m 'in' k" := (bind m (fun x => k))
  (at level 10, x name, m at level 100, k at level 200).
Notation "m >> k" := (bind m (fun _ => k))
  (at level 95, right associativity).

(** ** sqlite3 *)

Module Sqlite.

Section WithFaults.

Variable F : Faults.

Definition closed_database : string := "Cannot operate on a closed database.".
Definition no_such_table : string := "no such table: __EFMigrationsHistory".
Definition unique_failed : string :=
  "UNIQUE constraint failed: __EFMigrationsHistory.MigrationId".

(** A call that raised: it is journalled as failed and changes nothing. *)
Definition fails {A} (c : stmt) (msg : string) : M A :=
  fun w => (Raise (Exception msg), log_call (c, false) w).

(** [sqlite3.connect(db_path)]: the new connection sees the committed
    table. *)
Definition connect : M unit :=
  fun w =>
    match connect_error F with
    | Some e => fails SqlConnect e w
    | None => (Ret tt, log_call (SqlConnect, true) (set_session (Some (durable w)) w))
    end.

(** [cursor.execute('SELECT 1 FROM "__EFMigrationsHistory" WHERE
    "MigrationId" = ?', (id,))] followed by [cursor.fetchone()]: the row
    [(1,)] when the transaction sees a row with that key, [None] when it
    sees none. *)
Definition select_one (id : string) : M (option Z) :=
  fun w =>
    match session w with
    | None => fails (SqlSelect id) closed_database w
    | Some None => fails (SqlSelect id) no_such_table w
    | Some (Some L) =>
        match select_error F id with
        | Some e => fails (SqlSelect id) e w
        | None => (Ret ((fun _ => 1) <$> L !! id), log_call (SqlSelect id, true) w)
        end
    end.

(** Modelled from the spec: the schema of [__EFMigrationsHistory] is created
    outside this script; section 6 of the specification gives its key
    column as a unique primary key, so an insert of a key that is present
    raises and leaves the table as it was.

    [cursor.execute('INSERT INTO "__EFMigrationsHistory" ("MigrationId",
    "ProductVersion") VALUES (?, ?)', (id, v))]: the row is staged in the
    connection's transaction. *)
Definition insert_row (id v : string) : M unit :=
  fun w =>
    match session w with
    | None => fails (SqlInsert id v) closed_database w
    | Some None => fails (SqlInsert id v) no_such_table w
    | Some (Some L) =>
        match insert_error F id v with
        | Some e => fails (SqlInsert id v) e w
        | None =>
            match L !! id with
            | Some _ => fails (SqlInsert id v) unique_failed w
            | None =>
                (Ret tt,
                 log_call (SqlInsert id v, true)
                   (set_session (Some (Some (<[id := v]> L))) w))
            end
        end
    end.

(** [conn.commit()]: what the transaction sees becomes the committed
    table. *)
Definition commit : M unit :=
  fun w =>
    match session w with
    | None => fails SqlCommit closed_database w
    | Some t =>
        match commit_error F with
        | Some e => fails SqlCommit e w
        | None => (Ret tt, log_call (SqlCommit, true) (set_durable t w))
        end
    end.

(** [conn.close()]: the connection is released; rows that were staged and
    not committed are gone with it. *)
Definition close : M unit :=
  fun w => (Ret tt, log_call (SqlClose, true) (set_session None w)).

End WithFaults.

End Sqlite.

(** ** The script *)

Section Script.

Variable F : Faults.

Definition db_path : string := "hexabill.db".

Definition migrations : list MigrationRecord :=
  [ ("20260218024142_AddExpenseRouteId", "9.0.0");
    ("20260219062317_AddDamageCategoriesAndReturnExtensions", "9.0.0") ].

(** The body of the inner [try]: check, then insert when absent. *)
Definition check_then_insert (r : MigrationRecord) : M unit :=
  let '(migration_id, product_version) := r in
  let* exists_ := Sqlite.select_one F migration_id in
  if exists_ is Some _
  then print (AlreadyRecorded migration_id)
  else
    Sqlite.insert_row F migration_id product_version >>
    print (Inserted migration_id).

(** One iteration of the loop: the inner [try] / [except Exception as e]. *)
Definition process_record (r : MigrationRecord) : M unit :=
  try_except (check_then_insert r)
             (fun e => print (Failed (fst r) e)).

(** [for migration_id, product_version in migrations: ...] *)
Definition reconcile (catalog : list MigrationRecord) : M unit :=
  for_each catalog process_record.

(** The outer [try] block, over any catalog. [conn.cursor()] makes no
    database call of its own; the cursor's [execute] and [fetchone] are the
    calls of [Sqlite]. *)
Definition session_body (catalog : list MigrationRecord) : M unit :=
  Sqlite.connect F >>
  print (Checking db_path) >>
  reconcile catalog >>
  Sqlite.commit F >>
  print Completed >>
  Sqlite.close.

(** The whole script, over any catalog: the storage guard with its
    [exit(1)], then the outer [try] / [except Exception as e], whose handler
    prints and lets the script run off its end. *)
Definition script (catalog : list MigrationRecord) : M unit :=
  let* found := path_exists in
  (if negb found
   then print (StorageNotFound db_path) >> exit 1
   else ret tt) >>
  try_except (session_body catalog)
             (fun e => print (ConnectionError e)).

(** The script as it is, with its own catalog. *)
Definition fix_migrations : M unit := script migrations.

(** Running a script as a process: exit status and final world. *)
Definition run (catalog : list MigrationRecord) (w : World) : Z * World :=
  let '(r, w') := script catalog w in (exit_status r, w').

End Script.

(** ** What the loop does, as a function of the connection's state

    [step] reads one iteration of the loop off the code: the line it prints,
    the calls it makes, the state it leaves the connection in. [replay]
    chains it over a catalog. Both are tied to the script by
    [process_record_step] and [reconcile_replay] below. *)

Definition step (F : Faults) (s : option Table) (r : MigrationRecord)
  : line * list entry * option Table :=
  let '(id, v) := r in
  match s with
  | None => (Failed id Sqlite.closed_database, [(SqlSelect id, false)], s)
  | Some None => (Failed id Sqlite.no_such_table, [(SqlSelect id, false)], s)
  | Some (Some L) =>
      match select_error F id with
      | Some e => (Failed id e, [(SqlSelect id, false)], s)
      | None =>
          match L !! id with
          | Some _ => (AlreadyRecorded id, [(SqlSelect id, true)], s)
          | None =>
              match insert_error F id v with
              | Some e =>
                  (Failed id e,
                   [(SqlSelect id, true); (SqlInsert id v, false)], s)
              | None =>
                  (Inserted id,
                   [(SqlSelect id, true); (SqlInsert id v, true)],
                   Some (Some (<[id := v]> L)))
              end
          end
      end
  end.

Fixpoint replay (F : Faults) (s : option Table) (catalog : list MigrationRecord)
  : list line * list entry * option Table :=
  match catalog with
  | [] => ([], [], s)
  | r :: rest =>
      let '(l, es, s1) := step F s r in
      let '(ls, ess, s2) := replay F s1 rest in
      (l :: ls, es ++ ess, s2)
  end.

Definition outcomes (F : Faults) (s : option Table) (catalog : list MigrationRecord)
  : list line := (replay F s catalog).1.1.

Definition calls (F : Faults) (s : option Table) (catalog : list MigrationRecord)
  : list entry := (replay F s catalog).1.2.

Definition state_after (F : Faults) (s : option Table) (catalog : list MigrationRecord)
  : option Table := (replay F s catalog).2.

(** A world after more printing, more calls, and a new connection state. *)
Definition advance (w : World) (ls : list line) (es : list entry)
  (s : option Table) : World :=
  mkWorld (storage_present w) (durable w) s (stdout w ++ ls) (journal w ++ es).

(** An insert that went through. *)
Definition is_insert_done (e : entry) : bool :=
  match e with (SqlInsert _ _, true) => true | _ => false end.

(** The record needs nothing more from a connection in state [s]: its key is
    there, or one of its two calls raises. *)
Definition settled (F : Faults) (s : option Table) (r : MigrationRecord) : Prop :=
  match s with
  | Some (Some L) =>
      is_Some (L !! r.1) ∨ is_Some (select_error F r.1)
      ∨ is_Some (insert_error F r.1 r.2)
  | _ => True
  end.

(** Connection states ordered by the rows they hold. *)
Definition grows (s s' : option Table) : Prop :=
  match s, s' with
  | Some (Some L), Some (Some L') => L ⊆ L'
  | Some None, Some None => True
  | None, None => True
  | _, _ => False
  end.

(** The table an open connection sees after the loop. *)
Definition table_after (F : Faults) (t : Table) (catalog : list MigrationRecord)
  : Table :=
  match state_after F (Some t) catalog with
  | Some t' => t'
  | None => t
  end.

(** The record an insert call carries. *)
Definition insert_of (e : entry) : option MigrationRecord :=
  match e with (SqlInsert id v, _) => Some (id, v) | _ => None end.

(** How many inserts a stretch of output reports, and how many insert calls
    in a stretch of the journal went through. *)
Definition inserts_reported (ls : list line) : nat :=
  length (List.filter is_inserted ls).

Definition inserts_done (es : list entry) : nat :=
  length (List.filter is_insert_done es).

(** ** Concrete worlds *)

(** The storage file is there, the table is [t], nothing has happened yet. *)
Definition fresh_world (t : Table) : World := mkWorld true t None [] [].

(** There is no storage file. *)
Definition no_storage : World := mkWorld false None None [] [].

(** An environment in which only the commit raises. *)
Definition commit_fails : Faults :=
  mkFaults None (fun _ => None) (fun _ _ => None) (Some "disk I/O error").

(** An environment in which the file cannot be opened. *)
Definition connect_fails : Faults :=
  mkFaults (Some "unable to open database file")
    (fun _ => None) (fun _ _ => None) None.

(** An environment in which every call that binds the key ["B"] raises. *)
Definition rejects_B : Faults :=
  mkFaults None
    (fun id => if decide (id = "B") then Some "parameter error" else None)
    (fun id _ => if decide (id = "B") then Some "parameter error" else None)
    None.

(** The catalog of the specification's scenario. *)
Definition scenario : list MigrationRecord := [("A", "9.0.0"); ("B", "9.0.0")].

(** The scenario run once from an empty table, and once more after that. *)
Definition scenario_once : World :=
  (run no_faults scenario (fresh_world (Some ∅))).2.

Definition scenario_twice : World :=
  (run no_faults scenario scenario_once).2.

(** A connection opened on table [t], nothing printed or journalled yet. *)
Definition connected (t : Table) : World := mkWorld true t (Some t) [] [].

(** A catalog whose middle record is rejected. *)
Definition a_b_c : list MigrationRecord :=
  [("A", "9.0.0"); ("B", "9.0.0"); ("C", "9.0.0")].

(** Closing a decidable goal about concrete data by evaluation. *)
Ltac by_evaluation := apply (bool_decide_unpack _); vm_compute; exact I.


(** A ledger that already records ["X"] with version tag ["v1"]. *)
Definition has_X : gmap string string := {["X" := "v1"]}.

(** ** Reading the output and the journal *)

(** Which [print] call of the script produced a line. *)
Inductive line_kind : Type :=
| StorageNotFoundLine
| CheckingLine
| AlreadyRecordedLine
| InsertedLine
| FailedLine
| CompletedLine
| ConnectionErrorLine.

Definition kind_of (l : line) : line_kind :=
  match l with
  | StorageNotFound _ => StorageNotFoundLine
  | Checking _ => CheckingLine
  | AlreadyRecorded _ => AlreadyRecordedLine
  | Inserted _ => InsertedLine
  | Failed _ _ => FailedLine
  | Completed => CompletedLine
  | ConnectionError _ => ConnectionErrorLine
  end.


(** A call of the loop: an existence check or an insert. *)
Definition is_record_call (e : entry) : bool :=
  match e with
  | (SqlSelect _, _) | (SqlInsert _ _, _) => true
  | _ => false
  end.

(** What follows the commit call: the close when it returned, nothing when
    it raised. *)
Definition closing_calls (ok : bool) : list entry :=
  if ok then [(SqlClose, true)] else [].

(** An environment in which the insert of the key ["B"] raises, and nothing
    else does. *)
Definition rejects_insert_B : Faults :=
  mkFaults None (fun _ => None)
    (fun id _ => if decide (id = "B") then Some "constraint failed" else None)
    None.

(** The catalog's records raise no error of their own in [F]. *)
Definition clean (F : Faults) (catalog : list MigrationRecord) : Prop :=
  Forall (λ r, select_error F r.1 = None ∧ insert_error F r.1 r.2 = None)
    catalog.

(** A line that reports a failure of the run: a record that failed, or the
    error the outer handler caught. *)
Definition reports_failure (l : line) : bool :=
  match l with
  | Failed _ _ | ConnectionError _ => true
  | _ => false
  end.

(** The record is resolved on a connection in state [s]: its key is in the
    table (or there is no table to look in), so that its iteration issues
    no insert whatever errors it meets. *)
Definition resolved (s : option Table) (r : MigrationRecord) : Prop :=
  match s with
  | Some (Some L) => is_Some (L !! r.1)
  | _ => True
  end.

(** Idempotence as the specification words it, for a first run that meets
    the errors [F1] and a second that meets [F2]: the second run performs
    no insert and leaves the ledger the first one left as it is. *)
Definition idempotent_as_stated (F1 F2 : Faults)
  (catalog : list MigrationRecord) (w : World) : Prop :=
  inserts_reported
    (printed (run F1 catalog w).2 (run F2 catalog (run F1 catalog w).2).2)
  = 0%nat
  ∧ durable (run F2 catalog (run F1 catalog w).2).2
    = durable (run F1 catalog w).2.

(** ** Basic facts *)

Section Basics.

Variable F : Faults.

Lemma printed_advance w ls es s : printed w (advance w ls es s) = ls.
Proof. unfold printed, advance; simpl. by rewrite drop_app_length. Qed.

Lemma issued_advance w ls es s : issued w (advance w ls es s) = es.
Proof. unfold issued, advance; simpl. by rewrite drop_app_length. Qed.

Lemma advance_advance w ls es s ls' es' s' :
  advance (advance w ls es s) ls' es' s' = advance w (ls ++ ls') (es ++ es') s'.
Proof. unfold advance; simpl. by rewrite <- !app_assoc. Qed.

Lemma advance_nil w : advance w [] [] (session w) = w.
Proof. destruct w; unfold advance; simpl. by rewrite !app_nil_r. Qed.

(** One iteration never raises, and does what [step] says. *)
Lemma process_record_step r w :
  process_record F r w =
    (Ret tt, advance w [(step F (session w) r).1.1]
                       (step F (session w) r).1.2
                       (step F (session w) r).2).
Proof.
  destruct r as [id v], w as [p d s out j].
  unfold process_record, check_then_insert, try_except, bind,
    Sqlite.select_one, Sqlite.insert_row, Sqlite.fails, print, step; simpl.
  destruct s as [[L|]|]; simpl; try done.
  destruct (select_error F id); simpl; try done.
  destruct (L !! id) eqn:HL; simpl; try done.
  destruct (insert_error F id v); simpl; rewrite ?HL; simpl.
  all: unfold advance, emit, log_call, set_session; simpl.
  all: by rewrite <- app_assoc.
Qed.

(** The loop never raises, and does what [replay] says. *)
Lemma reconcile_replay catalog w :
  reconcile F catalog w =
    (Ret tt, advance w (outcomes F (session w) catalog)
                       (calls F (session w) catalog)
                       (state_after F (session w) catalog)).
Proof.
  revert w. induction catalog as [|r rest IH]; intros w.
  - unfold outcomes, calls, state_after; simpl. by rewrite advance_nil.
  - unfold reconcile in *. simpl. unfold bind at 1.
    rewrite process_record_step, IH.
    unfold outcomes, calls, state_after; simpl.
    destruct (step F (session w) r) as [[l es] s1]; simpl.
    destruct (replay F s1 rest) as [[ls ess] s2]; simpl.
    by rewrite advance_advance.
Qed.

End Basics.

(** ** The loop as a function of the connection's state *)

Section Replay.

Variable F : Faults.

Lemma replay_app s c1 c2 :
  replay F s (c1 ++ c2) =
    (outcomes F s c1 ++ outcomes F (state_after F s c1) c2,
     calls F s c1 ++ calls F (state_after F s c1) c2,
     state_after F (state_after F s c1) c2).
Proof.
  revert s. induction c1 as [|r rest IH]; intros s.
  - unfold outcomes, calls, state_after; simpl.
    by destruct (replay F s c2) as [[? ?] ?].
  - unfold outcomes, calls, state_after in *; simpl.
    destruct (step F s r) as [[l es] s1]. rewrite IH.
    destruct (replay F s1 rest) as [[ls ess] s2]; simpl.
    by rewrite <- app_assoc.
Qed.

Lemma outcomes_app s c1 c2 :
  outcomes F s (c1 ++ c2) =
    outcomes F s c1 ++ outcomes F (state_after F s c1) c2.
Proof. unfold outcomes at 1. by rewrite replay_app. Qed.

Lemma calls_app s c1 c2 :
  calls F s (c1 ++ c2) = calls F s c1 ++ calls F (state_after F s c1) c2.
Proof. unfold calls at 1. by rewrite replay_app. Qed.

Lemma state_after_app s c1 c2 :
  state_after F s (c1 ++ c2) = state_after F (state_after F s c1) c2.
Proof. unfold state_after at 1. by rewrite replay_app. Qed.

Lemma outcomes_cons s r rest :
  outcomes F s (r :: rest) =
    (step F s r).1.1 :: outcomes F (step F s r).2 rest.
Proof.
  unfold outcomes; simpl. destruct (step F s r) as [[l es] s1]; simpl.
  by destruct (replay F s1 rest) as [[? ?] ?].
Qed.

Lemma calls_cons s r rest :
  calls F s (r :: rest) = (step F s r).1.2 ++ calls F (step F s r).2 rest.
Proof.
  unfold calls; simpl. destruct (step F s r) as [[l es] s1]; simpl.
  by destruct (replay F s1 rest) as [[? ?] ?].
Qed.

Lemma state_after_cons s r rest :
  state_after F s (r :: rest) = state_after F (step F s r).2 rest.
Proof.
  unfold state_after; simpl. destruct (step F s r) as [[l es] s1]; simpl.
  by destruct (replay F s1 rest) as [[? ?] ?].
Qed.

(** Every iteration reports on its own record, and starts with its check. *)
Lemma step_line_id s r : line_id (step F s r).1.1 = Some r.1.
Proof.
  destruct r as [id v]; simpl. destruct s as [[L|]|]; simpl; try done.
  destruct (select_error F id); simpl; try done.
  destruct (L !! id); simpl; try done.
  by destruct (insert_error F id v).
Qed.

Lemma step_selects s r : omap select_of (step F s r).1.2 = [r.1].
Proof.
  destruct r as [id v]; simpl. destruct s as [[L|]|]; simpl; try done.
  destruct (select_error F id); simpl; try done.
  destruct (L !! id); simpl; try done.
  by destruct (insert_error F id v).
Qed.

Lemma outcomes_ids s catalog :
  line_id <$> outcomes F s catalog = Some <$> catalog.*1.
Proof.
  revert s. induction catalog as [|r rest IH]; intros s; [done|].
  rewrite outcomes_cons. simpl. by rewrite step_line_id, IH.
Qed.

Lemma calls_selects s catalog :
  omap select_of (calls F s catalog) = catalog.*1.
Proof.
  revert s. induction catalog as [|r rest IH]; intros s; [done|].
  rewrite calls_cons, omap_app, step_selects, IH. done.
Qed.

Lemma outcomes_length s catalog :
  length (outcomes F s catalog) = length catalog.
Proof.
  revert s. induction catalog as [|r rest IH]; intros s; [done|].
  rewrite outcomes_cons. simpl. by rewrite IH.
Qed.

(** The loop only adds rows. *)
Lemma grows_refl s : grows s s.
Proof. destruct s as [[L|]|]; simpl; done. Qed.

Lemma grows_trans s1 s2 s3 : grows s1 s2 → grows s2 s3 → grows s1 s3.
Proof.
  destruct s1 as [[L1|]|], s2 as [[L2|]|], s3 as [[L3|]|]; simpl; try done.
  intros H12 H23. by transitivity L2.
Qed.

Lemma step_grows s r : grows s (step F s r).2.
Proof.
  destruct r as [id v]; simpl. destruct s as [[L|]|]; simpl; try done.
  destruct (select_error F id); simpl; try done.
  destruct (L !! id) eqn:HL; simpl; try done.
  destruct (insert_error F id v); simpl; try done.
  by apply insert_subseteq.
Qed.

Lemma replay_grows s catalog : grows s (state_after F s catalog).
Proof.
  revert s. induction catalog as [|r rest IH]; intros s.
  - apply grows_refl.
  - rewrite state_after_cons.
    eapply grows_trans; [apply step_grows | apply IH].
Qed.

Lemma state_after_open t catalog :
  state_after F (Some t) catalog = Some (table_after F t catalog).
Proof.
  unfold table_after. pose proof (replay_grows (Some t) catalog) as H.
  destruct (state_after F (Some t) catalog) as [t'|]; [done|].
  by destruct t.
Qed.

End Replay.

(** ** Records that need nothing more *)

Section Settled.

Variable F : Faults.

Lemma step_settles s r : settled F (step F s r).2 r.
Proof.
  destruct r as [id v]; unfold settled; simpl.
  destruct s as [[L|]|]; simpl; try done.
  destruct (select_error F id) eqn:Hs; simpl; rewrite ?Hs; [by eauto|].
  destruct (L !! id) eqn:HL; simpl; rewrite ?HL; [by eauto|].
  destruct (insert_error F id v) eqn:Hi; simpl; rewrite ?Hi; [by eauto|].
  left. rewrite lookup_insert_eq. eauto.
Qed.

Lemma settled_grows s s' r : settled F s r → grows s s' → settled F s' r.
Proof.
  unfold settled, grows.
  destruct s as [[L|]|], s' as [[L'|]|]; try done.
  intros [[x Hx]|H] Hsub; [left|by right].
  exists x. by eapply lookup_weaken.
Qed.

Lemma settled_step s r :
  settled F s r →
  (step F s r).2 = s
  ∧ is_inserted (step F s r).1.1 = false
  ∧ Forall (λ e, is_insert_done e = false) (step F s r).1.2.
Proof.
  destruct r as [id v]; unfold settled; simpl.
  destruct s as [[L|]|]; simpl; try (intros _; by repeat constructor).
  intros H.
  destruct (select_error F id) eqn:Hs; simpl; [by repeat constructor|].
  destruct (L !! id) eqn:HL; simpl; [by repeat constructor|].
  destruct (insert_error F id v) eqn:Hi; simpl; [by repeat constructor|].
  destruct H as [[x Hx]|[[x Hx]|[x Hx]]]; congruence.
Qed.

Lemma settled_replay s catalog :
  Forall (settled F s) catalog →
  state_after F s catalog = s
  ∧ Forall (λ l, is_inserted l = false) (outcomes F s catalog)
  ∧ Forall (λ e, is_insert_done e = false) (calls F s catalog).
Proof.
  induction catalog as [|r rest IH]; intros Hall.
  - by repeat constructor.
  - inversion Hall as [|? ? Hr Hrest]; subst.
    destruct (settled_step s r Hr) as (Hs & Hl & He).
    rewrite state_after_cons, outcomes_cons, calls_cons, Hs.
    destruct (IH Hrest) as (IHs & IHl & IHe).
    split; [done|]. split; [by constructor|].
    by apply Forall_app.
Qed.

Lemma replay_settles s catalog :
  Forall (settled F (state_after F s catalog)) catalog.
Proof.
  revert s. induction catalog as [|r rest IH]; intros s; [constructor|].
  rewrite state_after_cons. constructor; [|apply IH].
  eapply settled_grows; [apply step_settles | apply replay_grows].
Qed.

(** Replaying a catalog over the state a first replay left. *)
Lemma replay_twice s catalog :
  let s1 := state_after F s catalog in
  state_after F s1 catalog = s1
  ∧ Forall (λ l, is_inserted l = false) (outcomes F s1 catalog)
  ∧ Forall (λ e, is_insert_done e = false) (calls F s1 catalog).
Proof. intros s1. apply settled_replay, replay_settles. Qed.

End Settled.

(** ** The script, path by path *)

Section Paths.

Variable F : Faults.

Lemma script_missing catalog w :
  storage_present w = false →
  script F catalog w =
    (Raise (SystemExit 1), emit (StorageNotFound db_path) w).
Proof.
  intros H. unfold script, bind, path_exists. rewrite H. done.
Qed.

Lemma script_connect_error catalog w e :
  storage_present w = true →
  connect_error F = Some e →
  script F catalog w =
    (Ret tt, advance w [ConnectionError e] [(SqlConnect, false)] (session w)).
Proof.
  intros H He. unfold script, bind, path_exists. rewrite H; simpl.
  unfold try_except, session_body, bind, Sqlite.connect. rewrite He.
  done.
Qed.

Lemma script_commit_error catalog w e :
  storage_present w = true →
  connect_error F = None →
  commit_error F = Some e →
  script F catalog w =
    (Ret tt,
     advance w
       (Checking db_path :: outcomes F (Some (durable w)) catalog
          ++ [ConnectionError e])
       ((SqlConnect, true) :: calls F (Some (durable w)) catalog
          ++ [(SqlCommit, false)])
       (Some (table_after F (durable w) catalog))).
Proof.
  intros H Hc He. unfold script, bind, path_exists. rewrite H; simpl.
  unfold try_except, session_body, bind at 1, Sqlite.connect. rewrite Hc.
  unfold bind at 1, print. unfold bind at 1. rewrite reconcile_replay.
  unfold bind at 1, Sqlite.commit. simpl.
  rewrite state_after_open, He. simpl.
  unfold advance, emit, log_call, set_session; simpl.
  by rewrite <- !app_assoc.
Qed.

Lemma script_committed catalog w :
  storage_present w = true →
  connect_error F = None →
  commit_error F = None →
  script F catalog w =
    (Ret tt,
     set_durable (table_after F (durable w) catalog)
       (advance w
          (Checking db_path :: outcomes F (Some (durable w)) catalog
             ++ [Completed])
          ((SqlConnect, true) :: calls F (Some (durable w)) catalog
             ++ [(SqlCommit, true); (SqlClose, true)])
          None)).
Proof.
  intros H Hc He. unfold script, bind, path_exists. rewrite H; simpl.
  unfold try_except, session_body, bind at 1, Sqlite.connect. rewrite Hc.
  unfold bind at 1, print. unfold bind at 1. rewrite reconcile_replay.
  unfold bind at 1, Sqlite.commit. simpl.
  rewrite state_after_open, He. simpl.
  unfold advance, emit, log_call, set_session, set_durable; simpl.
  by rewrite <- !app_assoc.
Qed.

End Paths.

(** ** Bookkeeping *)

Section Bookkeeping.

Variable F : Faults.

Lemma run_eq catalog w :
  run F catalog w =
    (exit_status (script F catalog w).1, (script F catalog w).2).
Proof. unfold run. by destruct (script F catalog w). Qed.

Lemma printed_set_durable w t ls es s :
  printed w (set_durable t (advance w ls es s)) = ls.
Proof. unfold printed, set_durable, advance; simpl. by rewrite drop_app_length. Qed.

Lemma issued_set_durable w t ls es s :
  issued w (set_durable t (advance w ls es s)) = es.
Proof. unfold issued, set_durable, advance; simpl. by rewrite drop_app_length. Qed.

Lemma printed_emit w l : printed w (emit l w) = [l].
Proof. unfold printed, emit; simpl. by rewrite drop_app_length. Qed.

Lemma issued_emit w l : issued w (emit l w) = [].
Proof. unfold issued, emit; simpl. by rewrite drop_all. Qed.

Lemma inserts_reported_none ls :
  Forall (λ l, is_inserted l = false) ls → inserts_reported ls = 0%nat.
Proof.
  unfold inserts_reported. induction 1 as [|l ls Hl _ IH]; [done|].
  simpl. by rewrite Hl.
Qed.

Lemma inserts_done_none es :
  Forall (λ e, is_insert_done e = false) es → inserts_done es = 0%nat.
Proof.
  unfold inserts_done. induction 1 as [|e es He _ IH]; [done|].
  simpl. by rewrite He.
Qed.

Lemma inserts_reported_app ls ls' :
  inserts_reported (ls ++ ls') = (inserts_reported ls + inserts_reported ls')%nat.
Proof. unfold inserts_reported. by rewrite List.filter_app, length_app. Qed.

Lemma inserts_done_app es es' :
  inserts_done (es ++ es') = (inserts_done es + inserts_done es')%nat.
Proof. unfold inserts_done. by rewrite List.filter_app, length_app. Qed.

(** The calls of the loop are checks and inserts. *)
Lemma step_calls_kind s r e :
  e ∈ (step F s r).1.2 → is_Some (select_of e) ∨ is_Some (insert_of e).
Proof.
  destruct r as [id v]; simpl. destruct s as [[L|]|]; simpl.
  2,3: intros ->%list_elem_of_singleton; simpl; eauto.
  destruct (select_error F id); simpl.
  { intros ->%list_elem_of_singleton; simpl; eauto. }
  destruct (L !! id); simpl.
  { intros ->%list_elem_of_singleton; simpl; eauto. }
  destruct (insert_error F id v); simpl.
  all: rewrite elem_of_cons, list_elem_of_singleton.
  all: intros [-> | ->]; simpl; eauto.
Qed.

Lemma calls_kind s catalog e :
  e ∈ calls F s catalog → is_Some (select_of e) ∨ is_Some (insert_of e).
Proof.
  revert s. induction catalog as [|r rest IH]; intros s.
  - unfold calls; simpl. by intros ?%not_elem_of_nil.
  - rewrite calls_cons, elem_of_app. intros [H|H].
    + by eapply step_calls_kind.
    + by eapply IH.
Qed.


(** When the existence check raises, the iteration consists of that one
    failed call. *)
Lemma select_one_raises id v w x :
  result (Sqlite.select_one F id) w = Raise x →
  ∃ e, x = Exception e
       ∧ step F (session w) (id, v)
         = (Failed id e, [(SqlSelect id, false)], session w).
Proof.
  destruct w as [p d s out j].
  unfold result, Sqlite.select_one, Sqlite.fails, step; simpl.
  destruct s as [[L|]|]; simpl.
  2,3: intros [= <-]; eauto.
  destruct (select_error F id); simpl; [intros [= <-]; eauto|done].
Qed.

(** Every record of the catalog has its turn: the loop reaches it in a
    state that has grown from the start, and its line and calls are part of
    the run. *)
Lemma replay_turn s catalog r :
  r ∈ catalog →
  ∃ s', grows s s'
        ∧ grows (step F s' r).2 (state_after F s catalog)
        ∧ (step F s' r).1.1 ∈ outcomes F s catalog
        ∧ (∀ e, e ∈ (step F s' r).1.2 → e ∈ calls F s catalog).
Proof.
  revert s. induction catalog as [|r0 rest IH]; intros s Hr.
  - by apply not_elem_of_nil in Hr.
  - rewrite state_after_cons, outcomes_cons, calls_cons.
    apply elem_of_cons in Hr as [->|Hr].
    + exists s. split; [apply grows_refl|]. split; [apply replay_grows|].
      split; [left|]. intros e He. apply elem_of_app. by left.
    + destruct (IH (step F s r0).2 Hr) as (s' & Hg & Hg' & Hl & He).
      exists s'. split; [eapply grows_trans; [apply step_grows|done]|].
      split; [done|]. split; [by right|].
      intros e Hin. apply elem_of_app. right. by apply He.
Qed.

End Bookkeeping.

(** ** Idempotence *)

(** The loop run twice on one connection, the second pass meeting the
    errors the first one met. *)
Lemma reconcile_twice (F : Faults) (catalog : list MigrationRecord) (w : World) :
  let w1 := exec (reconcile F catalog) w in
  let w2 := exec (reconcile F catalog) w1 in
  inserts_reported (printed w1 w2) = 0%nat
  ∧ inserts_done (issued w1 w2) = 0%nat
  ∧ session w2 = session w1
  ∧ durable w2 = durable w1.
Proof.
  unfold exec. rewrite reconcile_replay. simpl.
  rewrite reconcile_replay. simpl.
  rewrite printed_advance, issued_advance.
  destruct (replay_twice F (session w) catalog) as (Hs & Hl & He).
  split; [by apply inserts_reported_none|].
  split; [by apply inserts_done_none|]. done.
Qed.

(** The script run twice, the second process opening the storage the first
    one left and meeting the errors the first one met. *)
Lemma run_twice (F : Faults) (catalog : list MigrationRecord) (w : World) :
  let w1 := (run F catalog w).2 in
  let w2 := (run F catalog w1).2 in
  durable w2 = durable w1
  ∧ ((SqlCommit, false) ∉ issued w w1 →
     inserts_reported (printed w1 w2) = 0%nat
     ∧ inserts_done (issued w1 w2) = 0%nat).
Proof.
  cbv zeta. rewrite !run_eq. cbn [fst snd].
  destruct (storage_present w) eqn:Hp.
  2: { rewrite (script_missing F catalog w Hp). cbn [fst snd].
       rewrite script_missing by (simpl; done). cbn [fst snd].
       rewrite !printed_emit, !issued_emit. by repeat split. }
  destruct (connect_error F) as [e|] eqn:Hc.
  { rewrite (script_connect_error F catalog w e Hp Hc). cbn [fst snd].
    rewrite (script_connect_error F catalog _ e) by (simpl; done). cbn [fst snd].
    rewrite !printed_advance, !issued_advance. by repeat split. }
  destruct (commit_error F) as [e|] eqn:He.
  { rewrite (script_commit_error F catalog w e Hp Hc He). cbn [fst snd].
    rewrite (script_commit_error F catalog _ e) by (simpl; done). cbn [fst snd].
    split; [done|]. rewrite !issued_advance. intros Hno. exfalso.
    apply Hno. right. apply elem_of_app. right. left. }
  rewrite (script_committed F catalog w Hp Hc He). cbn [fst snd].
  rewrite script_committed by (simpl; done). cbn [fst snd].
  rewrite !printed_set_durable, !issued_set_durable. simpl.
  pose proof (replay_twice F (Some (durable w)) catalog) as Htw.
  rewrite state_after_open in Htw. simpl in Htw.
  destruct Htw as (Hs & Hl & Hi).
  split.
  - unfold table_after at 1. by rewrite Hs.
  - intros _. split.
    + change (Checking db_path :: ?a ++ [Completed])
        with ([Checking db_path] ++ a ++ [Completed]).
      rewrite !inserts_reported_app. by rewrite (inserts_reported_none _ Hl).
    + change ((SqlConnect, true) :: ?a ++ ?b)
        with ([(SqlConnect, true)] ++ a ++ b).
      rewrite !inserts_done_app. by rewrite (inserts_done_none _ Hi).
Qed.

(** The second pass does not depend on the errors repeating: when the first
    pass reported no failure, every identifier of the catalog is in the
    table, and a second pass performs no insert and changes nothing
    whatever errors it meets. *)
Lemma replay_all_present (F : Faults) (L : gmap string string)
  (catalog : list MigrationRecord) :
  Forall (λ l, is_failed l = false) (outcomes F (Some (Some L)) catalog) →
  ∃ L', state_after F (Some (Some L)) catalog = Some (Some L')
        ∧ Forall (λ r, is_Some (L' !! r.1)) catalog.
Proof.
  intros Hok.
  pose proof (replay_grows F (Some (Some L)) catalog) as Hfin.
  destruct (state_after F (Some (Some L)) catalog) as [[L'|]|] eqn:Hst;
    try done.
  exists L'. split; [done|]. apply Forall_forall. intros r Hr.
  destruct (replay_turn F (Some (Some L)) catalog r Hr)
    as (s' & Hg & Hg' & Hl & _).
  rewrite Forall_forall in Hok. specialize (Hok _ Hl).
  rewrite Hst in Hg'. destruct r as [id v].
  destruct s' as [[L1|]|]; simpl in Hok, Hg' |- *; try done.
  destruct (select_error F id); simpl in Hok, Hg'; try done.
  destruct (L1 !! id) as [v1|] eqn:H1; simpl in Hok, Hg'.
  { exists v1. by eapply lookup_weaken. }
  destruct (insert_error F id v); simpl in Hok, Hg'; try done.
  exists v. eapply lookup_weaken; [|exact Hg']. apply lookup_insert_eq.
Qed.

Lemma reconcile_twice_any_errors (F F' : Faults)
  (catalog : list MigrationRecord) (L : gmap string string) (w : World) :
  session w = Some (Some L) →
  Forall (λ l, is_failed l = false)
    (printed w (exec (reconcile F catalog) w)) →
  inserts_reported
    (printed (exec (reconcile F catalog) w)
       (exec (reconcile F' catalog) (exec (reconcile F catalog) w))) = 0%nat
  ∧ session (exec (reconcile F' catalog) (exec (reconcile F catalog) w))
    = session (exec (reconcile F catalog) w).
Proof.
  intros Hs. unfold exec. rewrite reconcile_replay. cbn [snd].
  rewrite printed_advance, Hs. intros Hok.
  destruct (replay_all_present F L catalog Hok) as (L' & Hst & Hall).
  rewrite reconcile_replay. cbn [snd session advance].
  rewrite printed_advance, Hst.
  destruct (settled_replay F' (Some (Some L')) catalog) as (H1 & H2 & _).
  { eapply Forall_impl; [exact Hall|]. intros r Hr. by left. }
  split; [by apply inserts_reported_none|done].
Qed.

(** The scenario of the specification: two records, an empty ledger. *)
Example scenario_first_run :
  printed (fresh_world (Some ∅)) scenario_once
  = [Checking db_path; Inserted "A"; Inserted "B"; Completed]
  ∧ durable scenario_once = Some (<["B" := "9.0.0"]> {["A" := "9.0.0"]}).
Proof. split; vm_compute; reflexivity. Qed.

Example scenario_second_run :
  printed scenario_once scenario_twice
  = [Checking db_path; AlreadyRecorded "A"; AlreadyRecorded "B"; Completed]
  ∧ durable scenario_twice = durable scenario_once.
Proof. split; vm_compute; reflexivity. Qed.

(** The script as it is, on a storage file without a history table. *)
Example fix_migrations_no_table :
  map render (stdout (exec (fix_migrations no_faults) (fresh_world None)))
  = [ "Checking migrations for hexabill.db...";
      "Error processing 20260218024142_AddExpenseRouteId: no such table: __EFMigrationsHistory";
      "Error processing 20260219062317_AddDamageCategoriesAndReturnExtensions: no such table: __EFMigrationsHistory";
      "Migration history update completed." ].
Proof. vm_compute. reflexivity. Qed.

(** A resolved record's iteration is its check alone. *)
Lemma resolved_step (F : Faults) (s : option Table) (r : MigrationRecord) :
  resolved s r →
  (step F s r).2 = s
  ∧ is_inserted (step F s r).1.1 = false
  ∧ Forall (λ e, insert_of e = None) (step F s r).1.2.
Proof.
  destruct r as [id v]; unfold resolved; simpl.
  destruct s as [[L|]|]; simpl; try (intros _; by repeat constructor).
  intros [v' Hv].
  destruct (select_error F id); simpl; [by repeat constructor|].
  rewrite Hv. simpl. by repeat constructor.
Qed.

Lemma resolved_replay (F : Faults) (s : option Table)
  (catalog : list MigrationRecord) :
  Forall (resolved s) catalog →
  state_after F s catalog = s
  ∧ Forall (λ l, is_inserted l = false) (outcomes F s catalog)
  ∧ Forall (λ e, insert_of e = None) (calls F s catalog).
Proof.
  induction catalog as [|r rest IH]; intros Hall.
  - by repeat constructor.
  - inversion Hall as [|? ? Hr Hrest]; subst.
    destruct (resolved_step F s r Hr) as (Hs & Hl & He).
    rewrite state_after_cons, outcomes_cons, calls_cons, Hs.
    destruct (IH Hrest) as (IHs & IHl & IHe).
    split; [done|]. split; [by constructor|].
    by apply Forall_app.
Qed.

(** After a pass that reported no failed record, every record of the
    catalog is resolved. *)
Lemma replay_resolves (F : Faults) (s : option Table)
  (catalog : list MigrationRecord) :
  Forall (λ l, is_failed l = false) (outcomes F s catalog) →
  Forall (resolved (state_after F s catalog)) catalog.
Proof.
  intros Hok. apply Forall_forall. intros r Hr.
  destruct (replay_turn F s catalog r Hr) as (s' & _ & Hg' & Hl & _).
  rewrite Forall_forall in Hok. specialize (Hok _ Hl).
  unfold resolved.
  destruct (state_after F s catalog) as [[L'|]|]; try done.
  destruct r as [id v].
  destruct s' as [[L1|]|]; simpl in Hok, Hg' |- *; try done.
  destruct (select_error F id); simpl in Hok, Hg'; try done.
  destruct (L1 !! id) as [v1|] eqn:H1; simpl in Hok, Hg'.
  { exists v1. by eapply lookup_weaken. }
  destruct (insert_error F id v); simpl in Hok, Hg'; try done.
  exists v. eapply lookup_weaken; [|exact Hg']. apply lookup_insert_eq.
Qed.

Lemma no_insert_reported_framed (ls : list line) (l l' : line) :
  Forall (λ x, is_inserted x = false) ls →
  is_inserted l = false → is_inserted l' = false →
  inserts_reported (l :: ls ++ [l']) = 0%nat.
Proof.
  intros Hls Hl Hl'. apply inserts_reported_none.
  constructor; [done|]. apply Forall_app. split; [done|by constructor].
Qed.

(** The loop twice on one connection, with any errors the second time. *)
Lemma reconcile_again (F1 F2 : Faults) (catalog : list MigrationRecord)
  (w : World) :
  Forall (λ l, is_failed l = false)
    (printed w (exec (reconcile F1 catalog) w)) →
  inserts_reported
    (printed (exec (reconcile F1 catalog) w)
       (exec (reconcile F2 catalog) (exec (reconcile F1 catalog) w))) = 0%nat
  ∧ Forall (λ e, insert_of e = None)
      (issued (exec (reconcile F1 catalog) w)
         (exec (reconcile F2 catalog) (exec (reconcile F1 catalog) w)))
  ∧ session (exec (reconcile F2 catalog) (exec (reconcile F1 catalog) w))
    = session (exec (reconcile F1 catalog) w)
  ∧ durable (exec (reconcile F2 catalog) (exec (reconcile F1 catalog) w))
    = durable (exec (reconcile F1 catalog) w).
Proof.
  unfold exec. rewrite reconcile_replay. cbn [snd].
  rewrite printed_advance. intros Hok.
  rewrite reconcile_replay. cbn [snd session durable advance].
  rewrite printed_advance, issued_advance.
  destruct (resolved_replay F2 _ catalog (replay_resolves F1 _ _ Hok))
    as (Hs & Hl & He).
  split; [by apply inserts_reported_none|done].
Qed.

(** The script twice, with any errors the second time. *)
Lemma run_again (F1 F2 : Faults) (catalog : list MigrationRecord) (w : World) :
  Forall (λ l, reports_failure l = false) (printed w (run F1 catalog w).2) →
  inserts_reported
    (printed (run F1 catalog w).2 (run F2 catalog (run F1 catalog w).2).2)
  = 0%nat
  ∧ Forall (λ e, insert_of e = None)
      (issued (run F1 catalog w).2 (run F2 catalog (run F1 catalog w).2).2)
  ∧ durable (run F2 catalog (run F1 catalog w).2).2
    = durable (run F1 catalog w).2.
Proof.
  rewrite (run_eq F1). cbn [snd].
  destruct (storage_present w) eqn:Hp.
  2: { rewrite (script_missing F1 catalog w Hp). cbn [snd]. intros _.
       rewrite run_eq. cbn [snd].
       rewrite script_missing by (simpl; done). cbn [snd].
       rewrite printed_emit, issued_emit. by repeat split. }
  destruct (connect_error F1) as [e|] eqn:Hc.
  { rewrite (script_connect_error F1 catalog w e Hp Hc). cbn [snd].
    rewrite printed_advance. intros Hok.
    inversion Hok as [|? ? Hbad _]. discriminate Hbad. }
  destruct (commit_error F1) as [e|] eqn:He.
  { rewrite (script_commit_error F1 catalog w e Hp Hc He). cbn [snd].
    rewrite printed_advance. intros Hok. exfalso.
    rewrite Forall_forall in Hok.
    assert (Hbad : reports_failure (ConnectionError e) = false).
    { apply Hok. right. apply elem_of_app. right. left. }
    discriminate Hbad. }
  rewrite (script_committed F1 catalog w Hp Hc He). cbn [snd].
  rewrite printed_set_durable. intros Hok.
  assert (Hout : Forall (λ l, is_failed l = false)
                   (outcomes F1 (Some (durable w)) catalog)).
  { apply Forall_cons in Hok as [_ Hok]. apply Forall_app in Hok as [Hok _].
    eapply Forall_impl; [exact Hok|]. by intros [] Hl. }
  pose proof (replay_resolves F1 _ _ Hout) as Hres.
  rewrite state_after_open in Hres.
  destruct (resolved_replay F2 _ catalog Hres) as (Hs & Hl & Hcalls).
  set (t1 := table_after F1 (durable w) catalog) in *.
  set (w1 := set_durable t1 _).
  assert (Hp1 : storage_present w1 = true) by done.
  assert (Hd1 : durable w1 = t1) by done.
  rewrite run_eq. cbn [snd].
  destruct (connect_error F2) as [e|] eqn:Hc2.
  { rewrite (script_connect_error F2 catalog w1 e Hp1 Hc2). cbn [snd].
    rewrite printed_advance, issued_advance. by repeat constructor. }
  destruct (commit_error F2) as [e|] eqn:He2.
  - rewrite (script_commit_error F2 catalog w1 e Hp1 Hc2 He2). cbn [snd].
    rewrite printed_advance, issued_advance, Hd1.
    split; [by apply no_insert_reported_framed|].
    split; [|done]. constructor; [done|].
    apply Forall_app. split; [done|by repeat constructor].
  - rewrite (script_committed F2 catalog w1 Hp1 Hc2 He2). cbn [snd].
    rewrite printed_set_durable, issued_set_durable, Hd1.
    split; [by apply no_insert_reported_framed|].
    split.
    + constructor; [done|].
      apply Forall_app. split; [done|by repeat constructor].
    + cbn [durable set_durable]. unfold table_after at 1. by rewrite Hs.
Qed.

(** C1, as stated, fails. The scenario's catalog on an empty ledger: the
    first run meets an insert of ["B"] that raises, so it reports ["B"] as
    failed, goes on, and commits ["A"] alone; the error does not come back,
    and the second run inserts ["B"] and changes the ledger the first run
    left. *)
Lemma idempotence_counterexample :
  ¬ idempotent_as_stated rejects_insert_B no_faults scenario
      (fresh_world (Some ∅)).
Proof.
  unfold idempotent_as_stated. intros [H _].
  vm_compute in H. discriminate H.
Qed.

(** C1, amended. Idempotence of reconciliation after a run without
    failures. If a pass of the loop over a catalog reported no failed
    record, a second pass over the ledger it left issues no insert call,
    reports no insert, and leaves the connection's table and the committed
    table as they are, whatever errors the second pass meets. Likewise for
    the whole script: if a run reported no failed record and no connection
    or commit error, a second run on the storage it left issues no insert
    call, reports no insert and leaves the committed table as it is,
    whatever errors the second run meets. *)
Theorem idempotent_after_clean_run (F1 F2 : Faults)
  (catalog : list MigrationRecord) :
  (∀ w : World,
     Forall (λ l, is_failed l = false)
       (printed w (exec (reconcile F1 catalog) w)) →
     inserts_reported
       (printed (exec (reconcile F1 catalog) w)
          (exec (reconcile F2 catalog) (exec (reconcile F1 catalog) w)))
     = 0%nat
     ∧ Forall (λ e, insert_of e = None)
         (issued (exec (reconcile F1 catalog) w)
            (exec (reconcile F2 catalog) (exec (reconcile F1 catalog) w)))
     ∧ session (exec (reconcile F2 catalog) (exec (reconcile F1 catalog) w))
       = session (exec (reconcile F1 catalog) w)
     ∧ durable (exec (reconcile F2 catalog) (exec (reconcile F1 catalog) w))
       = durable (exec (reconcile F1 catalog) w))
  ∧ (∀ w : World,
       Forall (λ l, reports_failure l = false)
         (printed w (run F1 catalog w).2) →
       inserts_reported
         (printed (run F1 catalog w).2
            (run F2 catalog (run F1 catalog w).2).2)
       = 0%nat
       ∧ Forall (λ e, insert_of e = None)
           (issued (run F1 catalog w).2
              (run F2 catalog (run F1 catalog w).2).2)
       ∧ durable (run F2 catalog (run F1 catalog w).2).2
         = durable (run F1 catalog w).2).
Proof.
  split; intros w; [apply reconcile_again | apply run_again].
Qed.

Lemma idempotent_after_clean_run_witness :
  Forall (λ l, reports_failure l = false)
    (printed (fresh_world (Some ∅)) scenario_once)
  ∧ inserts_reported
      (printed scenario_once (run rejects_insert_B scenario scenario_once).2)
    = 0%nat
  ∧ Forall (λ e, insert_of e = None)
      (issued scenario_once (run rejects_insert_B scenario scenario_once).2)
  ∧ durable (run rejects_insert_B scenario scenario_once).2
    = durable scenario_once.
Proof.
  assert (H : Forall (λ l, reports_failure l = false)
                (printed (fresh_world (Some ∅)) scenario_once)).
  { by repeat constructor. }
  split; [exact H|].
  exact (proj2 (idempotent_after_clean_run no_faults rejects_insert_B scenario)
           (fresh_world (Some ∅)) H).
Defined.

(** ** Failure isolation *)

Section Isolation.

Variable F : Faults.

Lemma reconcile_cons r rest w :
  reconcile F (r :: rest) w = reconcile F rest (exec (process_record F r) w).
Proof.
  unfold reconcile at 1, exec. simpl. unfold bind.
  by rewrite process_record_step.
Qed.

Lemma reconcile_app c1 c2 w :
  reconcile F (c1 ++ c2) w = reconcile F c2 (exec (reconcile F c1) w).
Proof.
  unfold exec. rewrite !reconcile_replay. simpl.
  rewrite advance_advance.
  by rewrite outcomes_app, calls_app, state_after_app.
Qed.

(** A record whose two calls do not raise is in the table once the loop is
    over. *)
Lemma replay_complete L catalog r :
  r ∈ catalog →
  select_error F r.1 = None →
  insert_error F r.1 r.2 = None →
  ∃ L', state_after F (Some (Some L)) catalog = Some (Some L')
        ∧ is_Some (L' !! r.1).
Proof.
  intros Hr Hs Hi.
  destruct (replay_turn F (Some (Some L)) catalog r Hr)
    as (s' & Hg & Hg' & _ & _).
  pose proof (step_settles F s' r) as Hset.
  eapply settled_grows in Hset; [|exact Hg'].
  pose proof (replay_grows F (Some (Some L)) catalog) as Hfin.
  destruct (state_after F (Some (Some L)) catalog) as [[L'|]|]; try done.
  exists L'. split; [done|].
  unfold settled in Hset. rewrite Hs, Hi in Hset.
  destruct Hset as [H|[[? H]|[? H]]]; done.
Qed.

End Isolation.



(** ** Completeness *)

Section Completeness.

Variable F : Faults.



End Completeness.




(** ** No overwrite *)

Section NoOverwrite.

Variable F : Faults.

(** Whatever path the script takes, the committed table only gains rows. *)
Lemma run_durable_grows catalog w :
  grows (Some (durable w)) (Some (durable (run F catalog w).2)).
Proof.
  rewrite run_eq. cbn [fst snd].
  destruct (storage_present w) eqn:Hp.
  2: { rewrite (script_missing F catalog w Hp). apply grows_refl. }
  destruct (connect_error F) as [e|] eqn:Hc.
  { rewrite (script_connect_error F catalog w e Hp Hc). apply grows_refl. }
  destruct (commit_error F) as [e|] eqn:He.
  { rewrite (script_commit_error F catalog w e Hp Hc He). apply grows_refl. }
  rewrite (script_committed F catalog w Hp Hc He). cbn [fst snd durable set_durable].
  rewrite <- state_after_open. apply replay_grows.
Qed.

Lemma grows_lookup L s X v :
  grows (Some (Some L)) s → L !! X = Some v →
  ∃ L', s = Some (Some L') ∧ L ⊆ L' ∧ L' !! X = Some v.
Proof.
  destruct s as [[L'|]|]; simpl; try done.
  intros Hsub HX. exists L'. split; [done|]. split; [done|].
  by eapply lookup_weaken.
Qed.

End NoOverwrite.

(** C4. No overwrite. If the ledger records identifier [X] with version tag
    [v1], then after the script has run, over any catalog (one that lists
    [X] with another tag included) and along any of its paths, the
    committed ledger still maps [X] to [v1], and it holds every row it held
    before, unchanged. The same is true of the table the connection sees
    while the loop runs: the loop only adds rows. *)
Theorem no_overwrite (F : Faults) (catalog : list MigrationRecord) (w : World)
  (L : gmap string string) (X v1 : string) :
  L !! X = Some v1 →
  (durable w = Some L →
   ∃ L', durable (run F catalog w).2 = Some L' ∧ L ⊆ L' ∧ L' !! X = Some v1)
  ∧ (session w = Some (Some L) →
     ∃ L', session (exec (reconcile F catalog) w) = Some (Some L')
           ∧ L ⊆ L' ∧ L' !! X = Some v1).
Proof.
  intros HX. split.
  - intros Hd. pose proof (run_durable_grows F catalog w) as Hg.
    rewrite Hd in Hg.
    destruct (grows_lookup L _ X v1 Hg HX) as (L' & [= HL'] & Hsub & HX').
    eauto.
  - intros Hs. unfold exec. rewrite reconcile_replay. simpl.
    pose proof (replay_grows F (session w) catalog) as Hg.
    rewrite Hs in Hg |- *.
    by apply grows_lookup.
Qed.

Lemma no_overwrite_witness :
  has_X !! "X" = Some "v1"
  ∧ durable (fresh_world (Some has_X)) = Some has_X
  ∧ ∃ L', durable (run no_faults [("X", "v2")] (fresh_world (Some has_X))).2
          = Some L'
          ∧ has_X ⊆ L' ∧ L' !! "X" = Some "v1".
Proof.
  assert (H1 : has_X !! "X" = Some "v1") by reflexivity.
  assert (H2 : durable (fresh_world (Some has_X)) = Some has_X) by reflexivity.
  split; [exact H1|]. split; [exact H2|].
  exact (proj1 (no_overwrite no_faults [("X", "v2")]
                  (fresh_world (Some has_X)) has_X "X" "v1" H1) H2).
Defined.

(** ** Duplicates *)

Section Duplicates.

Variable F : Faults.




End Duplicates.



(** ** Exit status, missing storage, and the connection's release *)

Section ExitPaths.

Variable F : Faults.

(** The exit status depends on the storage guard alone. *)
Lemma run_status catalog w :
  (run F catalog w).1 = if storage_present w then 0 else 1.
Proof.
  rewrite run_eq. cbn [fst].
  destruct (storage_present w) eqn:Hp.
  2: { by rewrite (script_missing F catalog w Hp). }
  destruct (connect_error F) as [e|] eqn:Hc.
  { by rewrite (script_connect_error F catalog w e Hp Hc). }
  destruct (commit_error F) as [e|] eqn:He.
  { by rewrite (script_commit_error F catalog w e Hp Hc He). }
  by rewrite (script_committed F catalog w Hp Hc He).
Qed.

(** When the commit raises, the script reports it, exits with status 0 and
    never reaches [conn.close()]. *)
Lemma run_commit_error catalog w e :
  storage_present w = true →
  connect_error F = None →
  commit_error F = Some e →
  (run F catalog w).1 = 0
  ∧ last (printed w (run F catalog w).2) = Some (ConnectionError e)
  ∧ is_Some (session (run F catalog w).2)
  ∧ (∀ ok, (SqlClose, ok) ∉ issued w (run F catalog w).2).
Proof.
  intros Hp Hc He. rewrite run_eq. cbn [fst snd].
  rewrite (script_commit_error F catalog w e Hp Hc He). cbn [fst snd].
  rewrite printed_advance, issued_advance.
  split; [done|].
  split. { change (Checking db_path :: ?a ++ ?b)
             with ((Checking db_path :: a) ++ b).
           apply last_snoc. }
  split; [simpl; eauto|].
  intros ok. rewrite elem_of_cons, elem_of_app, list_elem_of_singleton.
  intros [[=]|[H|[=]]]. apply calls_kind in H.
  by destruct H as [[? H]|[? H]].
Qed.

(** When the file cannot be opened, the script reports it and exits with
    status 0. *)
Lemma run_connect_error catalog w e :
  storage_present w = true →
  connect_error F = Some e →
  (run F catalog w).1 = 0
  ∧ printed w (run F catalog w).2 = [ConnectionError e].
Proof.
  intros Hp Hc. rewrite run_eq. cbn [fst snd].
  rewrite (script_connect_error F catalog w e Hp Hc). cbn [fst snd].
  by rewrite printed_advance.
Qed.

(** When the commit goes through, the connection is closed. *)
Lemma run_committed_closes catalog w :
  storage_present w = true →
  connect_error F = None →
  commit_error F = None →
  session (run F catalog w).2 = None
  ∧ last (issued w (run F catalog w).2) = Some (SqlClose, true).
Proof.
  intros Hp Hc He. rewrite run_eq. cbn [fst snd].
  rewrite (script_committed F catalog w Hp Hc He). cbn [fst snd].
  rewrite issued_set_durable. split; [done|].
  rewrite (app_assoc _ [(SqlCommit, true)] [(SqlClose, true)]).
  rewrite app_comm_cons. apply last_snoc.
Qed.

End ExitPaths.

(** C6, evaluated where the code departs from it. With the storage file in
    place and a commit that raises, the script prints the error line and
    ends with exit status 0; so it does when the file cannot be opened. The
    only non-zero status of the script is that of the storage guard. *)
Theorem fatal_error_exits_zero :
  (run commit_fails migrations (fresh_world (Some ∅))).1 = 0
  ∧ last (printed (fresh_world (Some ∅))
            (run commit_fails migrations (fresh_world (Some ∅))).2)
    = Some (ConnectionError "disk I/O error")
  ∧ (run connect_fails migrations (fresh_world (Some ∅))).1 = 0
  ∧ printed (fresh_world (Some ∅))
      (run connect_fails migrations (fresh_world (Some ∅))).2
    = [ConnectionError "unable to open database file"].
Proof.
  destruct (run_commit_error commit_fails migrations (fresh_world (Some ∅))
              "disk I/O error" eq_refl eq_refl eq_refl) as (H1 & H2 & _).
  destruct (run_connect_error connect_fails migrations (fresh_world (Some ∅))
              "unable to open database file" eq_refl eq_refl) as (H3 & H4).
  done.
Qed.

(** C7. Fatal halt on missing storage. When the storage file does not
    exist the script prints the not-found line and exits with status 1,
    having made no database call: nothing is connected to, checked,
    inserted or committed, and the committed table and the connection state
    are what they were. *)
Theorem missing_storage_halts (F : Faults) (catalog : list MigrationRecord)
  (w : World) :
  storage_present w = false →
  run F catalog w = (1, emit (StorageNotFound db_path) w)
  ∧ printed w (run F catalog w).2 = [StorageNotFound db_path]
  ∧ issued w (run F catalog w).2 = []
  ∧ durable (run F catalog w).2 = durable w
  ∧ session (run F catalog w).2 = session w
  ∧ (run F catalog w).1 ≠ 0.
Proof.
  intros Hp.
  assert (Hrun : run F catalog w = (1, emit (StorageNotFound db_path) w)).
  { rewrite run_eq, (script_missing F catalog w Hp). done. }
  rewrite Hrun. cbn [fst snd]. rewrite printed_emit, issued_emit.
  by repeat (split; [done|]).
Qed.

Lemma missing_storage_halts_witness :
  storage_present no_storage = false
  ∧ run no_faults migrations no_storage
    = (1, emit (StorageNotFound db_path) no_storage).
Proof.
  assert (H : storage_present no_storage = false) by reflexivity.
  split; [exact H|].
  exact (proj1 (missing_storage_halts no_faults migrations no_storage H)).
Defined.

(** C8, evaluated where the code departs from it. With a commit that
    raises, the script ends with the connection still open and no close
    call in its journal; when the commit goes through, the same script
    closes the connection. *)
Theorem commit_failure_skips_close :
  is_Some (session (run commit_fails migrations (fresh_world (Some ∅))).2)
  ∧ (∀ ok, (SqlClose, ok)
           ∉ issued (fresh_world (Some ∅))
               (run commit_fails migrations (fresh_world (Some ∅))).2)
  ∧ session (run no_faults migrations (fresh_world (Some ∅))).2 = None.
Proof.
  destruct (run_commit_error commit_fails migrations (fresh_world (Some ∅))
              "disk I/O error" eq_refl eq_refl eq_refl) as (_ & _ & H1 & H2).
  destruct (run_committed_closes no_faults migrations (fresh_world (Some ∅))
              eq_refl eq_refl eq_refl) as (H3 & _).
  done.
Qed.

(** ** Catalog order *)

Section Order.

Variable F : Faults.

Lemma outcomes_report s catalog :
  omap line_id (outcomes F s catalog) = catalog.*1.
Proof.
  revert s. induction catalog as [|r rest IH]; intros s; [done|].
  rewrite outcomes_cons. simpl. by rewrite step_line_id, IH.
Qed.

Lemma step_inserts s r :
  omap insert_of (step F s r).1.2 = []
  ∨ omap insert_of (step F s r).1.2 = [r].
Proof.
  destruct r as [id v]; simpl. destruct s as [[L|]|]; simpl; eauto.
  destruct (select_error F id); simpl; eauto.
  destruct (L !! id); simpl; eauto.
  destruct (insert_error F id v); simpl; eauto.
Qed.

(** The insert calls of the loop carry catalog records, in catalog order. *)
Lemma calls_inserts s catalog :
  omap insert_of (calls F s catalog) `sublist_of` catalog.
Proof.
  revert s. induction catalog as [|r rest IH]; intros s.
  - unfold calls; simpl. constructor.
  - rewrite calls_cons, omap_app.
    destruct (step_inserts s r) as [-> | ->]; simpl.
    + apply sublist_cons, IH.
    + apply sublist_skip, IH.
Qed.

(** What the whole script prints about records. *)
Lemma run_reports catalog w :
  omap line_id (printed w (run F catalog w).2)
  = if decide (storage_present w = true ∧ connect_error F = None)
    then catalog.*1 else [].
Proof.
  rewrite run_eq. cbn [fst snd].
  destruct (storage_present w) eqn:Hp.
  2: { rewrite (script_missing F catalog w Hp). cbn [snd].
       rewrite printed_emit. case_decide as H; [by destruct H|done]. }
  destruct (connect_error F) as [e|] eqn:Hc.
  { rewrite (script_connect_error F catalog w e Hp Hc). cbn [snd].
    rewrite printed_advance. case_decide as H; [by destruct H|done]. }
  rewrite decide_True by done.
  destruct (commit_error F) as [e|] eqn:He.
  - rewrite (script_commit_error F catalog w e Hp Hc He). cbn [snd].
    rewrite printed_advance. simpl.
    rewrite omap_app, outcomes_report. simpl. by rewrite app_nil_r.
  - rewrite (script_committed F catalog w Hp Hc He). cbn [snd].
    rewrite printed_set_durable. simpl.
    rewrite omap_app, outcomes_report. simpl. by rewrite app_nil_r.
Qed.

End Order.

(** C9. Strict catalog-order processing. The loop takes the records one at
    a time: a record's iteration starts from the world the records before
    it left, and the records after it start from the world it leaves. The
    existence checks are issued for the catalog's identifiers in catalog
    order, one per record; the insert calls carry catalog records in
    catalog order; and the outcome lines, one per record, report on the
    catalog's identifiers in that same order, in the loop and in the output
    of the whole script. *)
Theorem catalog_order (F : Faults) (catalog : list MigrationRecord) (w : World) :
  (∀ c1 r c2,
     reconcile F (c1 ++ r :: c2) w
     = reconcile F c2 (exec (process_record F r) (exec (reconcile F c1) w)))
  ∧ omap select_of (issued w (exec (reconcile F catalog) w)) = catalog.*1
  ∧ omap insert_of (issued w (exec (reconcile F catalog) w))
      `sublist_of` catalog
  ∧ line_id <$> printed w (exec (reconcile F catalog) w) = Some <$> catalog.*1
  ∧ length (printed w (exec (reconcile F catalog) w)) = length catalog
  ∧ omap line_id (printed w (run F catalog w).2)
    = if decide (storage_present w = true ∧ connect_error F = None)
      then catalog.*1 else [].
Proof.
  split. { intros c1 r c2. by rewrite reconcile_app, reconcile_cons. }
  unfold exec. rewrite reconcile_replay. cbn [snd].
  rewrite printed_advance, issued_advance.
  split; [apply calls_selects|].
  split; [apply calls_inserts|].
  split; [apply outcomes_ids|].
  split; [apply outcomes_length|].
  apply run_reports.
Qed.

(** ** Errors of the existence check *)

Section CheckErrors.

Variable F : Faults.

(** With no history table every iteration fails at its check. *)
Lemma replay_no_table catalog :
  replay F (Some None) catalog
  = ((λ r, Failed r.1 Sqlite.no_such_table) <$> catalog,
     (λ r, (SqlSelect r.1, false)) <$> catalog,
     Some None).
Proof.
  induction catalog as [|[id v] rest IH]; [done|].
  simpl. by rewrite IH.
Qed.

Lemma failed_checks_selects (catalog : list MigrationRecord) :
  omap select_of ((λ r, (SqlSelect r.1, false)) <$> catalog) = catalog.*1.
Proof.
  induction catalog as [|r rest IH]; [done|].
  csimpl. by rewrite IH.
Qed.

End CheckErrors.

(** C10. Errors of the existence check are caught per record. When the
    check of a record raises, the error is an [Exception] that the
    iteration catches: it returns normally, its only call is the failed
    check, it prints the failure as that record's outcome, it leaves the
    connection's table and the committed table as they were, and the loop
    goes on with the next record. In particular, when the storage file is
    there and can be opened but holds no history table, the script prints
    one failed outcome per catalog record, each naming the missing table,
    goes on to the commit, and ends with exit status 0. *)
Theorem check_error_isolated (F : Faults) (catalog : list MigrationRecord)
  (w : World) :
  (∀ r rest x,
     result (Sqlite.select_one F r.1) w = Raise x →
     ∃ e, x = Exception e
          ∧ result (process_record F r) w = Ret tt
          ∧ issued w (exec (process_record F r) w) = [(SqlSelect r.1, false)]
          ∧ printed w (exec (process_record F r) w) = [Failed r.1 e]
          ∧ session (exec (process_record F r) w) = session w
          ∧ durable (exec (process_record F r) w) = durable w
          ∧ reconcile F (r :: rest) w
            = reconcile F rest (exec (process_record F r) w))
  ∧ (storage_present w = true →
     connect_error F = None →
     durable w = None →
     printed w (run F catalog w).2
     = Checking db_path
         :: ((λ r, Failed r.1 Sqlite.no_such_table) <$> catalog)
         ++ [match commit_error F with
             | Some e => ConnectionError e
             | None => Completed
             end]
     ∧ omap select_of (issued w (run F catalog w).2) = catalog.*1
     ∧ (SqlCommit, bool_decide (commit_error F = None))
         ∈ issued w (run F catalog w).2
     ∧ (run F catalog w).1 = 0).
Proof.
  split.
  - intros [id v] rest x Hraise.
    destruct (select_one_raises F id v w x Hraise) as (e & -> & Hstep).
    exists e. split; [done|].
    assert (Hw : process_record F (id, v) w
                 = (Ret tt, advance w [Failed id e] [(SqlSelect id, false)]
                              (session w))).
    { by rewrite process_record_step, Hstep. }
    rewrite reconcile_cons. unfold result, exec. rewrite Hw. cbn [fst snd].
    by rewrite printed_advance, issued_advance.
  - intros Hp Hc Hd. rewrite run_status, Hp. rewrite run_eq. cbn [snd].
    destruct (commit_error F) as [e|] eqn:He.
    + rewrite (script_commit_error F catalog w e Hp Hc He). cbn [snd].
      rewrite printed_advance, issued_advance, Hd.
      unfold outcomes, calls. rewrite replay_no_table. cbn [fst snd].
      split; [done|]. split.
      { cbn [omap list_omap select_of]. rewrite omap_app, app_nil_r.
        apply failed_checks_selects. }
      split; [|done].
      right. apply elem_of_app. right. rewrite bool_decide_eq_false_2 by done.
      left.
    + rewrite (script_committed F catalog w Hp Hc He). cbn [snd].
      rewrite printed_set_durable, issued_set_durable, Hd.
      unfold outcomes, calls. rewrite replay_no_table. cbn [fst snd].
      split; [done|]. split.
      { cbn [omap list_omap select_of]. rewrite omap_app, app_nil_r.
        apply failed_checks_selects. }
      split; [|done].
      right. apply elem_of_app. right. rewrite bool_decide_eq_true_2 by done.
      left.
Qed.

Lemma check_error_isolated_witness :
  storage_present (fresh_world None) = true
  ∧ connect_error no_faults = None
  ∧ durable (fresh_world None) = None
  ∧ printed (fresh_world None) (run no_faults migrations (fresh_world None)).2
    = Checking db_path
        :: ((λ r, Failed r.1 Sqlite.no_such_table) <$> migrations)
        ++ [Completed].
Proof.
  assert (H1 : storage_present (fresh_world None) = true) by reflexivity.
  assert (H2 : connect_error no_faults = None) by reflexivity.
  assert (H3 : durable (fresh_world None) = None) by reflexivity.
  repeat (split; [assumption|]).
  exact (proj1 (proj2 (check_error_isolated no_faults migrations
                         (fresh_world None)) H1 H2 H3)).
Defined.

(** ** The printed text *)

Lemma append_length (s1 s2 : string) :
  String.length (s1 +:+ s2) = (String.length s1 + String.length s2)%nat.
Proof. induction s1 as [|a s1 IH]; simpl; [done|]. by rewrite IH. Qed.

Lemma append_inv_tail (p p' s : string) : p +:+ s = p' +:+ s → p = p'.
Proof.
  revert p'. induction p as [|a p IH]; intros [|a' p']; simpl; intros H.
  - done.
  - apply (f_equal String.length) in H.
    rewrite !append_length in H. simpl in H. lia.
  - apply (f_equal String.length) in H.
    rewrite !append_length in H. simpl in H. lia.
  - injection H as -> H. f_equal. by apply IH.
Qed.

Lemma render_kind (l l' : line) : render l = render l' → kind_of l = kind_of l'.
Proof.
  destruct l, l'; simpl; intros H; try reflexivity; discriminate H.
Qed.

(** X1. The text of a line tells which [print] call produced it: two lines
    with the same text come from the same call. Apart from the per-record
    error line, the text also determines the line's content (the path, the
    identifier, the error message). *)
Theorem render_unambiguous (l l' : line) :
  render l = render l' →
  kind_of l = kind_of l' ∧ (is_failed l = false → l = l').
Proof.
  intros H. pose proof (render_kind l l' H) as Hk. split; [done|].
  intros Hf.
  destruct l, l'; simpl in Hk; try discriminate Hk; try discriminate Hf.
  all: simpl in H; repeat (injection H as H).
  all: change (String.append EmptyString ?x) with x in H.
  - f_equal. by eapply append_inv_tail.
  - f_equal. by eapply append_inv_tail.
  - by subst.
  - by subst.
  - done.
  - by subst.
Qed.

Lemma render_unambiguous_witness :
  render (Inserted "A") = render (Inserted "A")
  ∧ kind_of (Inserted "A") = kind_of (Inserted "A").
Proof.
  split; [reflexivity|].
  exact (proj1 (render_unambiguous (Inserted "A") (Inserted "A") eq_refl)).
Defined.

(** The per-record error line is the exception: the identifier and the
    message are joined by [": "], which either of them may contain. *)
Example failed_line_ambiguous :
  render (Failed "a" "b: c") = render (Failed "a: b" "c").
Proof. reflexivity. Qed.

(** ** The shape of a run *)

Section Shape.

Variable F : Faults.

Lemma step_calls_record s r :
  Forall (λ e, is_record_call e = true) (step F s r).1.2.
Proof.
  destruct r as [id v]; simpl. destruct s as [[L|]|]; simpl.
  2,3: by repeat constructor.
  destruct (select_error F id); simpl; [by repeat constructor|].
  destruct (L !! id); simpl; [by repeat constructor|].
  destruct (insert_error F id v); simpl; by repeat constructor.
Qed.

Lemma calls_record s catalog :
  Forall (λ e, is_record_call e = true) (calls F s catalog).
Proof.
  revert s. induction catalog as [|r rest IH]; intros s.
  - unfold calls; simpl. constructor.
  - rewrite calls_cons. apply Forall_app. split; [apply step_calls_record|apply IH].
Qed.

Lemma outcomes_not_completed s catalog : Completed ∉ outcomes F s catalog.
Proof.
  intros Hl. apply (list_elem_of_fmap_2 line_id) in Hl.
  rewrite outcomes_ids in Hl. apply list_elem_of_fmap in Hl.
  by destruct Hl as (x & ? & _).
Qed.

Lemma framing_call_not_in_calls s catalog e :
  select_of e = None → insert_of e = None → e ∉ calls F s catalog.
Proof.
  intros Hs Hi Hin. apply calls_kind in Hin.
  rewrite Hs, Hi in Hin. by destruct Hin as [[? ?]|[? ?]].
Qed.

End Shape.

(** X2. One commit, after the loop. Once the connection is open, the script
    makes one commit call in the whole run, and makes it after the calls of
    every record, whether or not records failed: the journal is the
    connect, then existence checks and inserts only (one check per catalog
    record, in order), then the commit, then the close when the commit
    returned and nothing when it raised. *)
Theorem single_trailing_commit (F : Faults) (catalog : list MigrationRecord)
  (w : World) :
  storage_present w = true →
  connect_error F = None →
  ∃ es ok,
    issued w (run F catalog w).2
    = (SqlConnect, true) :: es
        ++ (SqlCommit, ok) :: closing_calls ok
    ∧ Forall (λ e, is_record_call e = true) es
    ∧ omap select_of es = catalog.*1
    ∧ ok = bool_decide (commit_error F = None).
Proof.
  intros Hp Hc. exists (calls F (Some (durable w)) catalog).
  rewrite run_eq. cbn [snd].
  destruct (commit_error F) as [e|] eqn:He.
  - exists false. rewrite (script_commit_error F catalog w e Hp Hc He).
    cbn [snd]. rewrite issued_advance.
    split; [done|]. split; [apply calls_record|].
    split; [apply calls_selects|done].
  - exists true. rewrite (script_committed F catalog w Hp Hc He).
    cbn [snd]. rewrite issued_set_durable.
    split; [done|]. split; [apply calls_record|].
    split; [apply calls_selects|done].
Qed.

Lemma single_trailing_commit_witness :
  storage_present (fresh_world (Some ∅)) = true
  ∧ connect_error rejects_B = None
  ∧ ∃ es ok,
      issued (fresh_world (Some ∅))
        (run rejects_B a_b_c (fresh_world (Some ∅))).2
      = (SqlConnect, true) :: es
          ++ (SqlCommit, ok) :: closing_calls ok
      ∧ Forall (λ e, is_record_call e = true) es
      ∧ omap select_of es = a_b_c.*1
      ∧ ok = bool_decide (commit_error rejects_B = None).
Proof.
  split; [reflexivity|]. split; [reflexivity|].
  exact (single_trailing_commit rejects_B a_b_c (fresh_world (Some ∅))
           eq_refl eq_refl).
Defined.

(** X3. When [sqlite3.connect] raises, nothing else is attempted: the failed
    connect is the only database call, the error line is the only output,
    and the committed table and the connection state are what they were. *)
Theorem connect_failure_attempts_nothing (F : Faults)
  (catalog : list MigrationRecord) (w : World) (e : string) :
  storage_present w = true →
  connect_error F = Some e →
  issued w (run F catalog w).2 = [(SqlConnect, false)]
  ∧ printed w (run F catalog w).2 = [ConnectionError e]
  ∧ durable (run F catalog w).2 = durable w
  ∧ session (run F catalog w).2 = session w.
Proof.
  intros Hp Hc. rewrite run_eq. cbn [snd].
  rewrite (script_connect_error F catalog w e Hp Hc). cbn [snd].
  by rewrite printed_advance, issued_advance.
Qed.

Lemma connect_failure_attempts_nothing_witness :
  storage_present (fresh_world (Some ∅)) = true
  ∧ connect_error connect_fails = Some "unable to open database file"
  ∧ issued (fresh_world (Some ∅))
      (run connect_fails migrations (fresh_world (Some ∅))).2
    = [(SqlConnect, false)].
Proof.
  split; [reflexivity|]. split; [reflexivity|].
  exact (proj1 (connect_failure_attempts_nothing connect_fails migrations
                  (fresh_world (Some ∅)) _ eq_refl eq_refl)).
Defined.

(** X4. The completion line can be trusted: the script prints it exactly
    when the commit call returned, which is exactly when it went on to
    close the connection. *)
Theorem completed_iff_committed (F : Faults) (catalog : list MigrationRecord)
  (w : World) :
  (Completed ∈ printed w (run F catalog w).2
   ↔ (SqlCommit, true) ∈ issued w (run F catalog w).2)
  ∧ ((SqlCommit, true) ∈ issued w (run F catalog w).2
     ↔ (SqlClose, true) ∈ issued w (run F catalog w).2).
Proof.
  rewrite run_eq. cbn [snd].
  destruct (storage_present w) eqn:Hp.
  2: { rewrite (script_missing F catalog w Hp). cbn [snd].
       rewrite printed_emit, issued_emit.
       rewrite list_elem_of_singleton, !elem_of_nil. by split; split. }
  destruct (connect_error F) as [e|] eqn:Hc.
  { rewrite (script_connect_error F catalog w e Hp Hc). cbn [snd].
    rewrite printed_advance, issued_advance.
    rewrite !list_elem_of_singleton. split; split; intros [=]. }
  destruct (commit_error F) as [e|] eqn:He.
  - rewrite (script_commit_error F catalog w e Hp Hc He). cbn [snd].
    rewrite printed_advance, issued_advance.
    assert (H1 : Completed ∉ Checking db_path
                   :: outcomes F (Some (durable w)) catalog
                   ++ [ConnectionError e]).
    { rewrite elem_of_cons, elem_of_app, list_elem_of_singleton.
      intros [[=]|[H|[=]]]. by apply outcomes_not_completed in H. }
    assert (H2 : ∀ c, select_of (c, true) = None → insert_of (c, true) = None →
                 c ≠ SqlConnect →
                 (c, true) ∉ (SqlConnect, true)
                   :: calls F (Some (durable w)) catalog
                   ++ [(SqlCommit, false)]).
    { intros c Hs Hi Hne.
      rewrite elem_of_cons, elem_of_app, list_elem_of_singleton.
      intros [[= ->]|[H|[=]]]; [done|].
      by eapply framing_call_not_in_calls. }
    pose proof (H2 SqlCommit eq_refl eq_refl ltac:(done)) as H3.
    pose proof (H2 SqlClose eq_refl eq_refl ltac:(done)) as H4.
    split; split; intros H; done.
  - rewrite (script_committed F catalog w Hp Hc He). cbn [snd].
    rewrite printed_set_durable, issued_set_durable.
    assert (H1 : Completed ∈ Checking db_path
                   :: outcomes F (Some (durable w)) catalog ++ [Completed]).
    { right. apply elem_of_app. right. left. }
    assert (H2 : (SqlCommit, true) ∈ (SqlConnect, true)
                   :: calls F (Some (durable w)) catalog
                   ++ [(SqlCommit, true); (SqlClose, true)]).
    { right. apply elem_of_app. right. left. }
    assert (H3 : (SqlClose, true) ∈ (SqlConnect, true)
                   :: calls F (Some (durable w)) catalog
                   ++ [(SqlCommit, true); (SqlClose, true)]).
    { right. apply elem_of_app. right. right. left. }
    split; split; intros _; done.
Qed.

(** ** The rows a run adds *)

Section Rows.

Variable F : Faults.

(** The committed table after a run is the one before it, or the one the
    loop left. *)
Lemma run_durable_cases catalog w :
  durable (run F catalog w).2 = durable w
  ∨ ((SqlCommit, true) ∈ issued w (run F catalog w).2
     ∧ durable (run F catalog w).2 = table_after F (durable w) catalog).
Proof.
  rewrite run_eq. cbn [snd].
  destruct (storage_present w) eqn:Hp.
  2: { rewrite (script_missing F catalog w Hp). by left. }
  destruct (connect_error F) as [e|] eqn:Hc.
  { rewrite (script_connect_error F catalog w e Hp Hc). by left. }
  destruct (commit_error F) as [e|] eqn:He.
  { rewrite (script_commit_error F catalog w e Hp Hc He). by left. }
  rewrite (script_committed F catalog w Hp Hc He). right.
  cbn [snd]. rewrite issued_set_durable. split; [|done].
  right. apply elem_of_app. right. left.
Qed.



(** Identifiers the catalog does not list are left alone. *)
Lemma replay_frame L L' catalog id :
  state_after F (Some (Some L)) catalog = Some (Some L') →
  id ∉ catalog.*1 →
  L' !! id = L !! id.
Proof.
  revert L. induction catalog as [|[id0 v] rest IH]; intros L.
  { unfold state_after. simpl. by intros [= ->]. }
  rewrite state_after_cons. simpl.
  rewrite not_elem_of_cons. intros Hst [Hne Hnot]. revert Hst.
  destruct (select_error F id0); simpl; [by eauto|].
  destruct (L !! id0) eqn:HL; simpl; [by eauto|].
  destruct (insert_error F id0 v); simpl; [by eauto|].
  intros Hst. rewrite (IH _ Hst Hnot). by apply lookup_insert_ne.
Qed.


End Rows.





(** X7. The script touches only what the catalog lists. Along every path of
    a run, the committed table maps an identifier the catalog does not list
    to what it mapped it to before, a row or none; and a storage without
    the history table is left without it: the script never creates the
    table. *)
Theorem other_rows_untouched (F : Faults) (catalog : list MigrationRecord)
  (w : World) :
  (∀ L id, durable w = Some L → id ∉ catalog.*1 →
     ∃ L', durable (run F catalog w).2 = Some L' ∧ L' !! id = L !! id)
  ∧ (durable w = None → durable (run F catalog w).2 = None).
Proof.
  split.
  - intros L id Hd Hid.
    destruct (run_durable_cases F catalog w) as [-> | [_ ->]]; [by eauto|].
    rewrite Hd.
    pose proof (state_after_open F (Some L) catalog) as Hst.
    pose proof (replay_grows F (Some (Some L)) catalog) as Hg.
    rewrite Hst in Hg.
    destruct (table_after F (Some L) catalog) as [L'|] eqn:Ht; [|done].
    exists L'. split; [done|]. by eapply replay_frame.
  - intros Hd.
    destruct (run_durable_cases F catalog w) as [-> | [_ ->]]; [done|].
    rewrite Hd.
    pose proof (state_after_open F None catalog) as Hst.
    pose proof (replay_grows F (Some None) catalog) as Hg.
    rewrite Hst in Hg. by destruct (table_after F None catalog).
Qed.

Lemma other_rows_untouched_witness :
  durable (fresh_world (Some has_X)) = Some has_X
  ∧ ("X" ∉ scenario.*1)
  ∧ ∃ L', durable (run no_faults scenario (fresh_world (Some has_X))).2
          = Some L'
          ∧ L' !! "X" = has_X !! "X".
Proof.
  assert (H1 : durable (fresh_world (Some has_X)) = Some has_X) by reflexivity.
  assert (H2 : "X" ∉ scenario.*1) by by_evaluation.
  split; [exact H1|]. split; [exact H2|].
  exact (proj1 (other_rows_untouched no_faults scenario
                  (fresh_world (Some has_X))) has_X "X" H1 H2).
Defined.

(** ** Runs without record errors *)

Section CleanRuns.

Variable F : Faults.

(** With no record error the loop leaves the table it found, completed by
    the catalog: rows that were there win over the catalog, and among
    catalog records with one identifier the first wins. *)
Lemma replay_clean L catalog :
  clean F catalog →
  state_after F (Some (Some L)) catalog
  = Some (Some (L ∪ (list_to_map catalog : gmap string string))).
Proof.
  revert L. induction catalog as [|[id v] rest IH]; intros L Hclean.
  { unfold state_after. simpl. by rewrite (right_id_L ∅ (∪)). }
  inversion Hclean as [|? ? [Hs Hi] Hrest]; subst. simpl in Hs, Hi.
  rewrite state_after_cons. simpl. rewrite Hs.
  destruct (L !! id) as [v'|] eqn:HL; simpl.
  - rewrite (IH L Hrest). do 2 f_equal. apply map_eq. intros j.
    rewrite !lookup_union. destruct (decide (id = j)) as [<-|Hne].
    + rewrite HL. by rewrite !union_Some_l.
    + by rewrite lookup_insert_ne.
  - rewrite Hi. simpl. rewrite (IH _ Hrest). do 2 f_equal.
    apply map_eq. intros j.
    rewrite !lookup_union. destruct (decide (id = j)) as [<-|Hne].
    + rewrite !lookup_insert_eq, HL. by rewrite union_Some_l.
    + by rewrite !lookup_insert_ne.
Qed.

(** When every identifier of the catalog is in the table and no check
    raises, each iteration is its check and reports the record as already
    recorded. *)
Lemma replay_all_recorded L catalog :
  Forall (λ r, is_Some (L !! r.1) ∧ select_error F r.1 = None) catalog →
  replay F (Some (Some L)) catalog
  = (AlreadyRecorded <$> catalog.*1,
     (λ id, (SqlSelect id, true)) <$> catalog.*1,
     Some (Some L)).
Proof.
  induction catalog as [|[id v] rest IH]; intros Hall; [done|].
  inversion Hall as [|? ? [[v' Hv] Hs] Hrest]; subst. simpl in Hv, Hs.
  simpl. rewrite Hs, Hv. by rewrite (IH Hrest).
Qed.


End CleanRuns.

(** X8. What a run without errors leaves. When the storage file is there
    with its history table, the connection opens, the commit returns and no
    call on a catalog record raises, the committed table after the run is
    the table before it completed by the catalog: a row that was there
    keeps its version tag, a new identifier gets the tag of its first
    record in the catalog. *)
Theorem clean_run_result (F : Faults) (catalog : list MigrationRecord)
  (w : World) (L : gmap string string) :
  storage_present w = true →
  connect_error F = None →
  commit_error F = None →
  clean F catalog →
  durable w = Some L →
  durable (run F catalog w).2
  = Some (L ∪ (list_to_map catalog : gmap string string)).
Proof.
  intros Hp Hc He Hclean Hd. rewrite run_eq. cbn [snd].
  rewrite (script_committed F catalog w Hp Hc He). cbn [snd durable set_durable].
  pose proof (state_after_open F (durable w) catalog) as Hst.
  rewrite Hd in Hst |- *. rewrite replay_clean in Hst by done.
  by injection Hst as <-.
Qed.

Lemma clean_run_result_witness :
  storage_present (fresh_world (Some has_X)) = true
  ∧ connect_error no_faults = None
  ∧ commit_error no_faults = None
  ∧ clean no_faults [("X", "v2"); ("A", "9.0.0"); ("A", "9.0.1")]
  ∧ durable (fresh_world (Some has_X)) = Some has_X
  ∧ durable
      (run no_faults [("X", "v2"); ("A", "9.0.0"); ("A", "9.0.1")]
         (fresh_world (Some has_X))).2
    = Some (has_X
            ∪ (list_to_map [("X", "v2"); ("A", "9.0.0"); ("A", "9.0.1")]
               : gmap string string)).
Proof.
  assert (H : clean no_faults [("X", "v2"); ("A", "9.0.0"); ("A", "9.0.1")]).
  { by repeat constructor. }
  repeat (split; [first [reflexivity | exact H]|]).
  exact (clean_run_result no_faults _ (fresh_world (Some has_X)) has_X
           eq_refl eq_refl eq_refl H eq_refl).
Defined.

(** X9. The second run of a run without errors. Under the conditions of X8,
    running the script again on the storage the first run left prints the
    header, one already-recorded line per catalog record in catalog order,
    and the completion line; its calls on records are the existence checks
    alone, each returning a row. *)
Theorem second_run_all_recorded (F : Faults) (catalog : list MigrationRecord)
  (w : World) (L : gmap string string) :
  storage_present w = true →
  connect_error F = None →
  commit_error F = None →
  clean F catalog →
  durable w = Some L →
  printed (run F catalog w).2 (run F catalog (run F catalog w).2).2
  = Checking db_path :: (AlreadyRecorded <$> catalog.*1) ++ [Completed]
  ∧ issued (run F catalog w).2 (run F catalog (run F catalog w).2).2
    = (SqlConnect, true)
        :: ((λ id, (SqlSelect id, true)) <$> catalog.*1)
        ++ [(SqlCommit, true); (SqlClose, true)].
Proof.
  intros Hp Hc He Hclean Hd.
  assert (Hd1 : ∃ L1, durable (run F catalog w).2 = Some L1
                ∧ Forall (λ r, is_Some (L1 !! r.1) ∧ select_error F r.1 = None)
                    catalog).
  { rewrite run_eq. cbn [snd].
    rewrite (script_committed F catalog w Hp Hc He).
    cbn [snd durable set_durable].
    pose proof (state_after_open F (durable w) catalog) as Hst.
    rewrite Hd in Hst |- *.
    pose proof (replay_grows F (Some (Some L)) catalog) as Hg.
    rewrite Hst in Hg.
    destruct (table_after F (Some L) catalog) as [L1|] eqn:Ht; [|done].
    exists L1. split; [done|]. apply Forall_forall. intros r Hr.
    unfold clean in Hclean. rewrite Forall_forall in Hclean.
    destruct (Hclean r Hr) as [Hs Hi]. split; [|done].
    destruct (replay_complete F L catalog r Hr Hs Hi) as (L' & HL' & Hin).
    rewrite Hst in HL'. by injection HL' as ->. }
  destruct Hd1 as (L1 & Hd1 & Hall).
  assert (Hp1 : storage_present (run F catalog w).2 = true).
  { rewrite run_eq. cbn [snd].
    by rewrite (script_committed F catalog w Hp Hc He). }
  rewrite (run_eq F catalog (run F catalog w).2). cbn [snd].
  rewrite (script_committed F catalog _ Hp1 Hc He). cbn [snd].
  rewrite printed_set_durable, issued_set_durable, Hd1.
  unfold outcomes, calls. by rewrite (replay_all_recorded F L1 catalog Hall).
Qed.

Lemma second_run_all_recorded_witness :
  storage_present (fresh_world (Some ∅)) = true
  ∧ connect_error no_faults = None
  ∧ commit_error no_faults = None
  ∧ clean no_faults scenario
  ∧ durable (fresh_world (Some ∅)) = Some ∅
  ∧ printed (run no_faults scenario (fresh_world (Some ∅))).2
      (run no_faults scenario
         (run no_faults scenario (fresh_world (Some ∅))).2).2
    = Checking db_path :: (AlreadyRecorded <$> scenario.*1) ++ [Completed].
Proof.
  assert (H : clean no_faults scenario) by (by repeat constructor).
  repeat (split; [first [reflexivity | exact H]|]).
  exact (proj1 (second_run_all_recorded no_faults scenario
                  (fresh_world (Some ∅)) ∅ eq_refl eq_refl eq_refl H eq_refl)).
Defined.

(** X10. An insert only after an empty check. Whatever the world an
    iteration starts in, it issues an insert call exactly when its
    existence check returned and returned no row; and an insert call it
    issues is for the iteration's own record, identifier and version
    tag. *)
Theorem insert_only_after_empty_check (F : Faults) (r : MigrationRecord)
  (w : World) :
  (result (Sqlite.select_one F r.1) w = Ret None
   ↔ ∃ ok, (SqlInsert r.1 r.2, ok) ∈ issued w (exec (process_record F r) w))
  ∧ (∀ id v ok,
       (SqlInsert id v, ok) ∈ issued w (exec (process_record F r) w) →
       id = r.1 ∧ v = r.2).
Proof.
  unfold exec. rewrite process_record_step. cbn [snd].
  rewrite issued_advance.
  destruct r as [id0 v0], w as [p d s out j].
  unfold result, Sqlite.select_one, Sqlite.fails. simpl.
  destruct s as [[L|]|]; simpl.
  2,3: split; [split; [done|]; intros [ok [=]%list_elem_of_singleton]
              | intros id v ok [=]%list_elem_of_singleton].
  destruct (select_error F id0); simpl.
  { split; [split; [done|]; intros [ok [=]%list_elem_of_singleton]
           | intros id v ok [=]%list_elem_of_singleton]. }
  destruct (L !! id0); simpl.
  { split; [split; [done|]; intros [ok [=]%list_elem_of_singleton]
           | intros id v ok [=]%list_elem_of_singleton]. }
  destruct (insert_error F id0 v0); simpl.
  all: split; [split; [intros _; eexists; right; left|done]|].
  all: intros id v ok; rewrite elem_of_cons, list_elem_of_singleton.
  all: by intros [[=]|[= -> -> _]].
Qed.



(** ** What the reports and the journal say *)

Section Reports.

Variable F : Faults.



Lemma step_calls_shape s r :
  (∃ ok, (step F s r).1.2 = [(SqlSelect r.1, ok)])
  ∨ (∃ ok, (step F s r).1.2 = [(SqlSelect r.1, true); (SqlInsert r.1 r.2, ok)]).
Proof.
  destruct r as [id v]; simpl. destruct s as [[L|]|]; simpl; eauto.
  destruct (select_error F id); simpl; eauto.
  destruct (L !! id); simpl; eauto.
  destruct (insert_error F id v); simpl; eauto.
Qed.

(** In the journal of the loop an insert call comes right after the check
    of the same identifier, and that check returned. *)
Lemma calls_insert_preceded s catalog i id v ok :
  calls F s catalog !! i = Some (SqlInsert id v, ok) →
  ∃ j, i = S j ∧ calls F s catalog !! j = Some (SqlSelect id, true).
Proof.
  revert s i. induction catalog as [|r rest IH]; intros s i.
  { unfold calls; simpl. done. }
  rewrite calls_cons.
  destruct (step_calls_shape s r) as [[b ->]|[b ->]].
  - destruct i as [|i]; simpl; [done|].
    intros H. destruct (IH _ _ H) as (j & -> & Hj). by exists (S j).
  - destruct i as [|[|i]]; simpl; [done| |].
    + intros [= <- <- <-]. by exists 0%nat.
    + intros H. destruct (IH _ _ H) as (j & -> & Hj). by exists (S (S j)).
Qed.

End Reports.



(** X13. No insert without its check. In the journal of the loop, every
    insert call is immediately preceded by the existence check of the same
    identifier, and that check returned rather than raised. *)
Theorem check_precedes_insert (F : Faults) (catalog : list MigrationRecord)
  (w : World) (i : nat) (id v : string) (ok : bool) :
  issued w (exec (reconcile F catalog) w) !! i = Some (SqlInsert id v, ok) →
  ∃ j, i = S j
       ∧ issued w (exec (reconcile F catalog) w) !! j
         = Some (SqlSelect id, true).
Proof.
  unfold exec. rewrite reconcile_replay. cbn [snd].
  rewrite issued_advance. apply calls_insert_preceded.
Qed.

Lemma check_precedes_insert_witness :
  issued (connected (Some ∅))
    (exec (reconcile no_faults scenario) (connected (Some ∅))) !! 3%nat
  = Some (SqlInsert "B" "9.0.0", true)
  ∧ ∃ j, 3%nat = S j
         ∧ issued (connected (Some ∅))
             (exec (reconcile no_faults scenario) (connected (Some ∅))) !! j
           = Some (SqlSelect "B", true).
Proof.
  assert (H : issued (connected (Some ∅))
                (exec (reconcile no_faults scenario) (connected (Some ∅)))
              !! 3%nat
              = Some (SqlInsert "B" "9.0.0", true)) by reflexivity.
  split; [exact H|].
  exact (check_precedes_insert no_faults scenario (connected (Some ∅))
           3 "B" "9.0.0" true H).
Defined.
